(** * FedAvg server: a shallow embedding of
      [dc_federated/algorithms/fed_avg/fed_avg_server.py]

    The two classes [FedAvgServer] and [FedAvgServerRoni] are embedded as
    state-passing functions over a record holding the attributes of the
    Python object.  Python dictionaries are insertion-ordered association
    lists, Python exceptions are an explicit outcome that keeps the state
    reached when the exception was raised, and tensor arithmetic is an
    interface ([TensorOps]) with an instance on the rationals. *)

From Stdlib Require Import List ZArith QArith Bool String Lia.
Import ListNotations.

Local Open Scope Z_scope.

Set Implicit Arguments.

(** ** Python exceptions and fallible pure code *)

Inductive PyExc : Type :=
| TypeError                       (* subscripting [None] *)
| IndexError                      (* [lst[0]] on an empty list *)
| KeyError (key : string)         (* missing dictionary key *)
| NameError (name : string)       (* unbound global name *)
| FileNotFoundError               (* [open] on a missing file *)
| UnpackError                     (* the payload does not decode *)
| EvaluationError.                (* a trainer's [test()] raised *)

Definition result (A : Type) : Type := (A + PyExc)%type.

Abbreviation ok := (@inl _ PyExc).
Abbreviation raise := (@inr _ PyExc).

Definition rbind {A B} (m : result A) (k : A -> result B) : result B :=
  match m with
  | inl a => k a
  | inr e => inr e
  end.

Declare Scope py_scope.
Delimit Scope py_scope with py.
Notation "'let?' x ':=' m 'in' k" := (rbind m (fun x => k))
  (at level 10, x pattern, m at level 100, k at level 200) : py_scope.
Local Open Scope py_scope.

(** ** Python [dict] / [OrderedDict]: insertion-ordered maps with string keys *)

Module Dict.
Section Dict.
Variable V : Type.

Definition t := list (string * V).

(** [d.keys()] *)
Definition keys (d : t) : list string := map fst d.

(** [d.get(k)] as an option; [d[k]] raises [KeyError] on [None]. *)
Fixpoint get (k : string) (d : t) : option V :=
  match d with
  | [] => None
  | (k', v) :: r => if String.eqb k k' then Some v else get k r
  end.

(** [k in d] *)
Definition mem (k : string) (d : t) : bool :=
  match get k d with Some _ => true | None => false end.

(** [d[k]] *)
Definition getitem (k : string) (d : t) : result V :=
  match get k d with
  | Some v => ok v
  | None => raise (KeyError k)
  end.

(** [d[k] = v]: an existing key keeps its position, a new one goes last. *)
Fixpoint set (k : string) (v : V) (d : t) : t :=
  match d with
  | [] => [(k, v)]
  | (k', v') :: r =>
      if String.eqb k k' then (k', v) :: r else (k', v') :: set k v r
  end.

(** [d.pop(k)]: the dictionary without [k]; [KeyError] when absent. *)
Fixpoint remove (k : string) (d : t) : t :=
  match d with
  | [] => []
  | (k', v') :: r => if String.eqb k k' then r else (k', v') :: remove k r
  end.

Definition pop (k : string) (d : t) : result t :=
  if mem k d then ok (remove k d) else raise (KeyError k).
End Dict.
End Dict.

(** ** Tensors

    [torch] tensors are used through three operations only: scaling by an
    integer sample count ([t * n]), addition ([t + u]) and division by an
    integer ([t / n]). *)

Class TensorOps (T : Type) : Type := {
  tmul : T -> Z -> T;
  tadd : T -> T -> T;
  tdiv : T -> Z -> T
}.

#[export] Instance Q_tensor : TensorOps Q := {
  tmul t n := (t * inject_Z n)%Q;
  tadd t u := (t + u)%Q;
  tdiv t n := (t / inject_Z n)%Q
}.

(** Python's [sum] on a list of integers. *)
Definition sum (l : list Z) : Z := fold_left Z.add l 0.

(** [[x for index, x in enumerate(l) if index != i]] *)
Fixpoint drop_index {A} (i : nat) (l : list A) : list A :=
  match l with
  | [] => []
  | x :: r =>
      match i with
      | O => r
      | S j => x :: drop_index j r
      end
  end.

Section Aggregation.
Context {T : Type} `{TensorOps T}.

(** A model's [state_dict()]: parameter name to tensor. *)
Definition StateDict := Dict.t T.

(** The accumulation loop of [agg_params]:
    [for sd, sz in zip(state_dicts[1:], update_sizes[1:]): agg_val = agg_val + sd[key] * sz] *)
Fixpoint agg_loop (key : string) (rest : list (StateDict * Z)) (agg_val : T)
  : result T :=
  match rest with
  | [] => ok agg_val
  | (sd, sz) :: r =>
      let? v := Dict.getitem key sd in
      agg_loop key r (tadd agg_val (tmul v sz))
  end.

(** [agg_params(key, state_dicts, update_sizes)] (identical in both classes). *)
Definition agg_params (key : string) (state_dicts : list StateDict)
    (update_sizes : list Z) : result T :=
  match state_dicts with
  | [] => raise IndexError
  | sd0 :: _ =>
      let? v0 := Dict.getitem key sd0 in
      match update_sizes with
      | [] => raise IndexError
      | sz0 :: _ =>
          let? agg_val :=
            agg_loop key (combine (tl state_dicts) (tl update_sizes)) (tmul v0 sz0) in
          ok (tdiv agg_val (sum update_sizes))
      end
  end.

(** The loop [for key in ...keys(): model_dict[key] = agg_params(key, ...)]. *)
Fixpoint agg_keys (ks : list string) (state_dicts : list StateDict)
    (update_sizes : list Z) (model_dict : StateDict) : result StateDict :=
  match ks with
  | [] => ok model_dict
  | key :: r =>
      let? v := agg_params key state_dicts update_sizes in
      agg_keys r state_dicts update_sizes (Dict.set key v model_dict)
  end.

(** [gen_agg_model(model_subset_dicts, model_subset_sizes)]; the same
    statements build [global_model_dict] in both [agg_model] methods. *)
Definition gen_agg_model (model_subset_dicts : list StateDict)
    (model_subset_sizes : list Z) : result StateDict :=
  match model_subset_dicts with
  | [] => raise IndexError
  | sd0 :: _ =>
      agg_keys (Dict.keys sd0) model_subset_dicts model_subset_sizes []
  end.

End Aggregation.

(** ** The server object *)

(** What a trainer's [test()] returns: the entries ["average loss"] and
    ["accuracy"] of its result dictionary. *)
Record Perf : Type := { average_loss : Q; accuracy : Q }.

(** One entry of [test_run_dict[self.model_version]]. *)
Record RoniEntry : Type := {
  entry_average_loss : Q;
  entry_accuracy : Q;
  model_start_timestamp : Z
}.

(** [datetime(1980, 10, 10)], in microseconds since 1970-01-01. *)
Definition datetime_1980_10_10 : Z := 3935 * 86400 * 1000000.

(** The two classes of the module; [agg_model] is overridden by the second. *)
Inductive ServerClass : Type := FedAvgServer | FedAvgServerRoni.

Section Server.
Context {T : Type} `{TensorOps T}.

(** A stored worker update: [(timestamp, update_size, model)]. *)
Definition WorkerUpdate : Type := (Z * Z * StateDict (T:=T))%type.

(** The [model_update] bytes of a submission, by what decoding them gives:
    [msgpack.unpackb] raises, or it yields [(update_size, model_bytes)] and
    [torch.load] raises, or both succeed. *)
Inductive ModelUpdate : Type :=
| Malformed
| BadModel (update_size : Z)
| Packed (update_size : Z) (model : StateDict (T:=T)).

(** Attributes of the server object, with the model held by
    [global_model_trainer], the model loaded in [roni_trainer_creator], the
    module-level [roni_db] and the number of [datetime.now()] calls so far. *)
Record Server : Type := {
  worker_updates : Dict.t (option WorkerUpdate);
  global_model : StateDict (T:=T);
  update_lim : Z;
  last_global_model_update_timestamp : Z;
  unique_updates_since_last_agg : Z;
  iteration : Z;
  model_version : Z;
  roni_model : option (StateDict (T:=T));
  roni_db : list (Z * Dict.t RoniEntry);
  clock_reads : nat
}.

(** The collaborators the server calls and the names it reads from its
    module's globals. *)
Record World : Type := {
  (** [WID_LEN], star-imported from [_constants] *)
  WID_LEN : nat;
  (** successive readings of [datetime.now()] *)
  clock : nat -> Z;
  (** [global_model_trainer.test()] on the model it holds *)
  trainer_test : StateDict (T:=T) -> result Perf;
  (** [roni_trainer_creator]: [load_model_from_state_dict] then [test()] *)
  roni_test : StateDict (T:=T) -> result Perf;
  (** [FedAvgServer.agg_model] only: what opening ['roni_config'], [json.load]
      and [create_trainer_from_config] give, a trainer's [load_model] then
      [test()], or the exception raised on the way *)
  roni_config_trainer : result (StateDict (T:=T) -> result Perf);
  (** [FedAvgServer.agg_model] only: the binding of the global name
      [gen_agg_model], if any *)
  gen_agg_model_global :
    option (list (StateDict (T:=T)) -> list Z -> result (StateDict (T:=T)))
}.

Variable W : World.

Inductive outcome (A : Type) : Type :=
| Return (a : A) (s : Server)
| Raise (e : PyExc) (s : Server).
Arguments Return {A} a s.
Arguments Raise {A} e s.

Definition set_worker_updates (s : Server) v : Server :=
  {| worker_updates := v;
     global_model := global_model s;
     update_lim := update_lim s;
     last_global_model_update_timestamp := last_global_model_update_timestamp s;
     unique_updates_since_last_agg := unique_updates_since_last_agg s;
     iteration := iteration s;
     model_version := model_version s;
     roni_model := roni_model s;
     roni_db := roni_db s;
     clock_reads := clock_reads s |}.

Definition set_global_model (s : Server) v : Server :=
  {| worker_updates := worker_updates s;
     global_model := v;
     update_lim := update_lim s;
     last_global_model_update_timestamp := last_global_model_update_timestamp s;
     unique_updates_since_last_agg := unique_updates_since_last_agg s;
     iteration := iteration s;
     model_version := model_version s;
     roni_model := roni_model s;
     roni_db := roni_db s;
     clock_reads := clock_reads s |}.

Definition set_unique_updates_since_last_agg (s : Server) v : Server :=
  {| worker_updates := worker_updates s;
     global_model := global_model s;
     update_lim := update_lim s;
     last_global_model_update_timestamp := last_global_model_update_timestamp s;
     unique_updates_since_last_agg := v;
     iteration := iteration s;
     model_version := model_version s;
     roni_model := roni_model s;
     roni_db := roni_db s;
     clock_reads := clock_reads s |}.

Definition set_roni_model (s : Server) v : Server :=
  {| worker_updates := worker_updates s;
     global_model := global_model s;
     update_lim := update_lim s;
     last_global_model_update_timestamp := last_global_model_update_timestamp s;
     unique_updates_since_last_agg := unique_updates_since_last_agg s;
     iteration := iteration s;
     model_version := model_version s;
     roni_model := v;
     roni_db := roni_db s;
     clock_reads := clock_reads s |}.

Definition insert_roni_db (s : Server) doc : Server :=
  {| worker_updates := worker_updates s;
     global_model := global_model s;
     update_lim := update_lim s;
     last_global_model_update_timestamp := last_global_model_update_timestamp s;
     unique_updates_since_last_agg := unique_updates_since_last_agg s;
     iteration := iteration s;
     model_version := model_version s;
     roni_model := roni_model s;
     roni_db := roni_db s ++ [doc];
     clock_reads := clock_reads s |}.

(** [datetime.now()] *)
Definition datetime_now (s : Server) : Z * Server :=
  (clock W (clock_reads s),
   {| worker_updates := worker_updates s;
      global_model := global_model s;
      update_lim := update_lim s;
      last_global_model_update_timestamp := last_global_model_update_timestamp s;
      unique_updates_since_last_agg := unique_updates_since_last_agg s;
      iteration := iteration s;
      model_version := model_version s;
      roni_model := roni_model s;
      roni_db := roni_db s;
      clock_reads := S (clock_reads s) |}).

(** The last four statements before [return True]:
    [last_global_model_update_timestamp = datetime.now()],
    [unique_updates_since_last_agg = 0], [iteration += 1],
    [model_version += 1]. *)
Definition advance_round (s : Server) : Server :=
  let (now, s1) := datetime_now s in
  {| worker_updates := worker_updates s1;
     global_model := global_model s1;
     update_lim := update_lim s1;
     last_global_model_update_timestamp := now;
     unique_updates_since_last_agg := 0;
     iteration := iteration s1 + 1;
     model_version := model_version s1 + 1;
     roni_model := roni_model s1;
     roni_db := roni_db s1;
     clock_reads := clock_reads s1 |}.

(** [__init__] *)
Definition init (model : StateDict (T:=T)) (lim : Z) : Server :=
  {| worker_updates := [];
     global_model := model;
     update_lim := lim;
     last_global_model_update_timestamp := datetime_1980_10_10;
     unique_updates_since_last_agg := 0;
     iteration := 0;
     model_version := 0;
     roni_model := None;
     roni_db := [];
     clock_reads := O |}.

(** [register_worker]: [self.worker_updates[worker_id] = None] *)
Definition register_worker (worker_id : string) (s : Server) : outcome unit :=
  Return tt (set_worker_updates s (Dict.set worker_id None (worker_updates s))).

(** [unregister_worker]: [self.worker_updates.pop(worker_id)] *)
Definition unregister_worker (worker_id : string) (s : Server) : outcome unit :=
  match Dict.pop worker_id (worker_updates s) with
  | inl d => Return tt (set_worker_updates s d)
  | inr e => Raise e s
  end.

(** [return_global_model]: the model and [GLOBAL_MODEL_VERSION]. *)
Definition return_global_model (s : Server) : StateDict (T:=T) * Z :=
  (global_model s, model_version s).

(** [is_global_model_most_recent]: [self.model_version == model_version] *)
Definition is_global_model_most_recent (s : Server) (version : Z) : bool :=
  Z.eqb (model_version s) version.

(** The gathering loop of [agg_model]: for each [wi] of [worker_updates] in
    dictionary order, keep the update when
    [worker_updates[wi][0] > last_global_model_update_timestamp];
    subscripting a [None] record raises [TypeError]. *)
Fixpoint gather (items : Dict.t (option WorkerUpdate)) (last : Z)
  : result (list (StateDict (T:=T)) * list Z * list string) :=
  match items with
  | [] => ok ([], [], [])
  | (wi, None) :: _ => raise TypeError
  | (wi, Some (ts, sz, model)) :: r =>
      let? (sds, szs, wids) := gather r last in
      if last <? ts then ok (model :: sds, sz :: szs, wi :: wids)
      else ok (sds, szs, wids)
  end.

(** *** Methods as state-passing computations that may raise *)

Definition M (A : Type) : Type := Server -> outcome A.

Definition ret {A} (a : A) : M A := fun s => Return a s.

Definition bind {A B} (m : M A) (k : A -> M B) : M B :=
  fun s =>
    match m s with
    | Return a s' => k a s'
    | Raise e s' => Raise e s'
    end.

Definition lift {A} (r : result A) : M A :=
  fun s =>
    match r with
    | inl a => Return a s
    | inr e => Raise e s
    end.

Definition self : M Server := fun s => Return s s.

Definition modify (f : Server -> Server) : M unit := fun s => Return tt (f s).

Definition now : M Z := fun s => let (t, s') := datetime_now s in Return t s'.

Notation "'let!' x ':=' m 'in' k" := (bind m (fun x => k))
  (at level 10, x pattern, m at level 100, k at level 200).

(** [msgpack.unpackb(model_update)] and [torch.load(io.BytesIO(model_bytes))] *)
Definition unpackb (model_update : ModelUpdate)
  : result (Z * option (StateDict (T:=T))) :=
  match model_update with
  | Malformed => raise UnpackError
  | BadModel update_size => ok (update_size, None)
  | Packed update_size model => ok (update_size, Some model)
  end.

Definition torch_load (model_bytes : option (StateDict (T:=T)))
  : result (StateDict (T:=T)) :=
  match model_bytes with
  | Some model => ok model
  | None => raise UnpackError
  end.

(** The leave-one-out loop of [FedAvgServerRoni.agg_model]. *)
Fixpoint roni_loop (indices : list nat) (state_dicts : list (StateDict (T:=T)))
    (update_sizes : list Z) (worker_ids : list string) (timestampStr : Z)
    (test_run : Dict.t RoniEntry) : M (Dict.t RoniEntry) :=
  match indices with
  | [] => ret test_run
  | i :: rest =>
      let! subset_agg_model :=
        lift (gen_agg_model (drop_index i state_dicts) (drop_index i update_sizes)) in
      let! _ := modify (fun s => set_roni_model s (Some subset_agg_model)) in
      let! subset_test_perf := lift (roni_test W subset_agg_model) in
      roni_loop rest state_dicts update_sizes worker_ids timestampStr
        (Dict.set (nth i worker_ids EmptyString)
           {| entry_average_loss := average_loss subset_test_perf;
              entry_accuracy := accuracy subset_test_perf;
              model_start_timestamp := timestampStr |}
           test_run)
  end.

(** [FedAvgServerRoni.agg_model] past its threshold test. *)
Definition aggregate_roni : M bool :=
  let! s := self in
  let! (state_dicts, update_sizes, worker_ids) :=
    lift (gather (worker_updates s) (last_global_model_update_timestamp s)) in
  let! timestampStr := now in
  let! test_run :=
    roni_loop (seq 0 (List.length worker_ids)) state_dicts update_sizes worker_ids
      timestampStr [] in
  let! global_model_dict := lift (gen_agg_model state_dicts update_sizes) in
  let! _ := modify (fun s => set_roni_model s (Some global_model_dict)) in
  let! global_model_test_perf := lift (roni_test W global_model_dict) in
  let! _ :=
    modify (fun s =>
      insert_roni_db s
        (model_version s,
         Dict.set "global_model"%string
           {| entry_average_loss := average_loss global_model_test_perf;
              entry_accuracy := accuracy global_model_test_perf;
              model_start_timestamp := timestampStr |}
           test_run)) in
  let! _ := modify (fun s => set_global_model s global_model_dict) in
  let! _ := modify advance_round in
  ret true.

(** The leave-one-out loop of [FedAvgServer.agg_model]: [gen_agg_model] is
    read from the module globals, and each subset model is loaded into
    [global_model_trainer] before [roni_trainer] tests it. *)
Fixpoint base_loop (indices : list nat) (state_dicts : list (StateDict (T:=T)))
    (update_sizes : list Z) (roni_trainer : StateDict (T:=T) -> result Perf)
  : M unit :=
  match indices with
  | [] => ret tt
  | i :: rest =>
      let! gen :=
        lift (match gen_agg_model_global W with
              | Some f => ok f
              | None => raise (NameError "gen_agg_model")
              end) in
      let! subset_agg_model :=
        lift (gen (drop_index i state_dicts) (drop_index i update_sizes)) in
      let! _ := modify (fun s => set_global_model s subset_agg_model) in
      let! _ := lift (roni_trainer subset_agg_model) in
      base_loop rest state_dicts update_sizes roni_trainer
  end.

(** [FedAvgServer.agg_model] past its threshold test. *)
Definition aggregate_base : M bool :=
  let! s := self in
  let! (state_dicts, update_sizes, worker_ids) :=
    lift (gather (worker_updates s) (last_global_model_update_timestamp s)) in
  let! roni_trainer := lift (roni_config_trainer W) in
  let! _ :=
    base_loop (seq 0 (List.length worker_ids)) state_dicts update_sizes roni_trainer in
  let! global_model_dict := lift (gen_agg_model state_dicts update_sizes) in
  let! _ := modify (fun s => set_global_model s global_model_dict) in
  let! _ := modify advance_round in
  ret true.

Definition aggregate (cls : ServerClass) : M bool :=
  match cls with
  | FedAvgServer => aggregate_base
  | FedAvgServerRoni => aggregate_roni
  end.

(** [agg_model], dispatched on the class of [self]. *)
Definition agg_model (cls : ServerClass) : M bool :=
  let! s := self in
  if unique_updates_since_last_agg s <? update_lim s then ret false
  else aggregate cls.

(** [receive_worker_update] *)
Definition receive_worker_update (cls : ServerClass) (worker_id : string)
    (model_update : ModelUpdate) : M string :=
  let! s := self in
  if Dict.mem worker_id (worker_updates s) then
    let! stored := lift (Dict.getitem worker_id (worker_updates s)) in
    let! _ :=
      (if match stored with
          | None => true
          | Some (ts, _, _) => ts <? last_global_model_update_timestamp s
          end
       then modify (fun s =>
              set_unique_updates_since_last_agg s
                (unique_updates_since_last_agg s + 1))
       else ret tt) in
    let! (update_size, model_bytes) := lift (unpackb model_update) in
    let! t := now in
    let! model := lift (torch_load model_bytes) in
    let! _ :=
      modify (fun s =>
        set_worker_updates s
          (Dict.set worker_id (Some (t, update_size, model)) (worker_updates s))) in
    let! aggregated := agg_model cls in
    let! _ :=
      (if aggregated
       then let! s := self in
            let! _ := lift (trainer_test W (global_model s)) in ret tt
       else ret tt) in
    ret ("Update received for worker " ++ substring 0 (WID_LEN W) worker_id)%string
  else
    ret "Please register before sending an update."%string.

End Server.

Arguments Return {T A} a s.
Arguments Raise {T A} e s.


(** ** The vocabulary of the specification *)

Section WeightedMean.
Context {T : Type} `{TensorOps T}.


(** [Σ_i value_i * sampleCount_i] over a non-empty list of contributors,
    added in the order of the list. *)
Definition weighted_sum (c : T * Z) (cs : list (T * Z)) : T :=
  fold_left (fun acc x => tadd acc (tmul (fst x) (snd x))) cs
    (tmul (fst c) (snd c)).

(** [Σ_i value_i * sampleCount_i / Σ_i sampleCount_i]; undefined without
    contributors. *)
Definition weighted_mean (col : list (T * Z)) : option T :=
  match col with
  | [] => None
  | c :: r => Some (tdiv (weighted_sum c r) (sum (map snd col)))
  end.

(** The values the contributors hold for [key], each with the contributor's
    sample count; [None] when some contributor lacks the key. *)
Fixpoint column (key : string) (cs : list (StateDict (T:=T) * Z))
  : option (list (T * Z)) :=
  match cs with
  | [] => Some []
  | (sd, sz) :: r =>
      match Dict.get key sd, column key r with
      | Some v, Some col => Some ((v, sz) :: col)
      | _, _ => None
      end
  end.

(** Every contributor has exactly the keys of the first one. *)
Definition same_key_set (cs : list (StateDict (T:=T) * Z)) : Prop :=
  forall c0 c, hd_error cs = Some c0 -> In c cs ->
    forall k, In k (Dict.keys (fst c0)) <-> In k (Dict.keys (fst c)).

End WeightedMean.

(** Sums over the rationals and the integers, from zero. *)
Definition Qsum (l : list Q) : Q := fold_right Qplus 0%Q l.
Definition Zsum (l : list Z) : Z := fold_right Z.add 0 l.

Section Specification.
Context {T : Type} `{TensorOps T}.
Variable W : World (T:=T).

(** The registry, the configuration, the round counters and the audit
    store agree in two states. *)
Definition same_round (s s' : Server (T:=T)) : Prop :=
  worker_updates s' = worker_updates s
  /\ update_lim s' = update_lim s
  /\ last_global_model_update_timestamp s' = last_global_model_update_timestamp s
  /\ unique_updates_since_last_agg s' = unique_updates_since_last_agg s
  /\ iteration s' = iteration s
  /\ model_version s' = model_version s
  /\ roni_db s' = roni_db s.

(** The state an outcome ends in. *)
Definition final_state {A} (o : outcome A) : Server (T:=T) :=
  match o with
  | Return _ s => s
  | Raise _ s => s
  end.

(** A successful aggregation: the new global model is the aggregate of the
    gathered updates, the round counters advance, the new round starts at a
    fresh clock reading, the registry stays. *)
Definition aggregated (s s' : Server (T:=T)) : Prop :=
  exists sds szs wids,
    gather (worker_updates s) (last_global_model_update_timestamp s)
    = ok (sds, szs, wids)
    /\ gen_agg_model sds szs = ok (global_model s')
    /\ worker_updates s' = worker_updates s
    /\ update_lim s' = update_lim s
    /\ unique_updates_since_last_agg s' = 0
    /\ iteration s' = iteration s + 1
    /\ model_version s' = model_version s + 1
    /\ exists n, (clock_reads s <= n)%nat
                 /\ last_global_model_update_timestamp s' = clock W n
                 /\ clock_reads s' = S n.

(** A worker's submission counts as new when the worker has no stored
    record, or its stored record's timestamp precedes the start of the
    round. *)
Definition counts_as_new (s : Server (T:=T)) (worker_id : string) : bool :=
  match Dict.get worker_id (worker_updates s) with
  | Some None => true
  | Some (Some (ts, _, _)) => ts <? last_global_model_update_timestamp s
  | None => false
  end.

(** The state once a decoded update of a registered worker is stored:
    the counter moved if the submission counts as new, the clock read
    once, the worker's record replaced. *)
Definition recorded (worker_id : string) (update_size : Z)
    (model : StateDict (T:=T)) (s : Server (T:=T)) : Server :=
  {| worker_updates :=
       Dict.set worker_id (Some (clock W (clock_reads s), update_size, model))
         (worker_updates s);
     global_model := global_model s;
     update_lim := update_lim s;
     last_global_model_update_timestamp := last_global_model_update_timestamp s;
     unique_updates_since_last_agg :=
       unique_updates_since_last_agg s
       + (if counts_as_new s worker_id then 1 else 0);
     iteration := iteration s;
     model_version := model_version s;
     roni_model := roni_model s;
     roni_db := roni_db s;
     clock_reads := S (clock_reads s) |}.

(** The reply to an accepted update. *)
Definition update_received (worker_id : string) : string :=
  ("Update received for worker " ++ substring 0 (WID_LEN W) worker_id)%string.

(** The contributors of the round that starts at
    [last_global_model_update_timestamp]: the workers whose stored record is
    strictly later, in registry order, with model and sample count. *)
Fixpoint contributors_of (items : Dict.t (option (WorkerUpdate (T:=T)))) (last : Z)
  : list (string * (StateDict (T:=T) * Z)) :=
  match items with
  | [] => []
  | (wi, Some (ts, sz, model)) :: r =>
      if last <? ts then (wi, (model, sz)) :: contributors_of r last
      else contributors_of r last
  | (wi, None) :: r => contributors_of r last
  end.

Definition contributors (s : Server (T:=T)) : list (string * (StateDict (T:=T) * Z)) :=
  contributors_of (worker_updates s) (last_global_model_update_timestamp s).

(** Successive decoded submissions, each by the worker named with it. *)
Fixpoint submissions (cls : ServerClass)
    (calls : list (string * (Z * StateDict (T:=T)))) : M unit :=
  match calls with
  | [] => ret tt
  | (worker_id, (update_size, model)) :: rest =>
      bind (receive_worker_update W cls worker_id (Packed update_size model))
        (fun _ => submissions cls rest)
  end.

(** The calls the transport layer makes on the server. *)
Inductive Call : Type :=
| CallRegister (worker_id : string)
| CallUnregister (worker_id : string)
| CallReceive (worker_id : string) (model_update : ModelUpdate (T:=T)).

(** The state a call leaves behind, whether it returns or raises. *)
Definition after_call (cls : ServerClass) (c : Call) (s : Server (T:=T)) : Server :=
  match c with
  | CallRegister worker_id => final_state (register_worker worker_id s)
  | CallUnregister worker_id => final_state (unregister_worker worker_id s)
  | CallReceive worker_id model_update =>
      final_state (receive_worker_update W cls worker_id model_update s)
  end.

(** States a server of class [cls] can be in. *)
Inductive reachable (cls : ServerClass) : Server (T:=T) -> Prop :=
| reachable_init model lim : reachable cls (init model lim)
| reachable_call s c : reachable cls s -> reachable cls (after_call cls c s).

(** The clock never runs backwards, and starts after [datetime(1980, 10, 10)]. *)
Definition clock_monotone : Prop :=
  datetime_1980_10_10 <= clock W 0 /\ forall n, clock W n <= clock W (S n).

(** No later clock reading precedes the start of the current round. *)
Definition round_start_passed (s : Server (T:=T)) : Prop :=
  forall n, (clock_reads s <= n)%nat ->
    last_global_model_update_timestamp s <= clock W n.

End Specification.

(** ** A concrete deployment over the rationals *)

Module Demo.
Local Open Scope string_scope.

Definition perf : Perf := {| average_loss := 0; accuracy := 1 |}.

(** A single-parameter model. *)
Definition model (v : Q) : StateDict (T:=Q) := [("w", v)].

(** The module as it is written: it binds neither [json] nor
    [create_trainer_from_config] nor a global [gen_agg_model]. *)
Definition world : World (T:=Q) :=
  {| WID_LEN := 8;
     clock := fun n => datetime_1980_10_10 + 1 + Z.of_nat n;
     trainer_test := fun _ => ok perf;
     roni_test := fun _ => ok perf;
     roni_config_trainer := raise (NameError "json");
     gen_agg_model_global := None |}.

(** The same, with an evaluation harness that raises on every model whose
    parameter ["w"] is [10]. *)
Definition failing_world : World (T:=Q) :=
  {| WID_LEN := 8;
     clock := fun n => datetime_1980_10_10 + 1 + Z.of_nat n;
     trainer_test := fun _ => ok perf;
     roni_test := fun sd =>
       match Dict.get "w" sd with
       | Some v => if Qeq_bool v 10 then raise EvaluationError else ok perf
       | None => ok perf
       end;
     roni_config_trainer := raise (NameError "json");
     gen_agg_model_global := None |}.

(** The module with the three missing names supplied: an audit trainer that
    evaluates every model, and the [gen_agg_model] of [FedAvgServerRoni]. *)
Definition patched_world : World (T:=Q) :=
  {| WID_LEN := 8;
     clock := fun n => datetime_1980_10_10 + 1 + Z.of_nat n;
     trainer_test := fun _ => ok perf;
     roni_test := fun _ => ok perf;
     roni_config_trainer := ok (fun _ => ok perf);
     gen_agg_model_global := Some gen_agg_model |}.

(** Workers A and B registered, threshold 2. *)
Definition registered_AB : Server (T:=Q) :=
  final_state (register_worker "B"
    (final_state (register_worker "A" (init (model 0) 2)))).

(** Workers A, B and C registered, threshold 2. *)
Definition registered_ABC : Server (T:=Q) :=
  final_state (register_worker "C" registered_AB).

(** A has submitted value 2 with 3 samples. *)
Definition A_submitted (w : World (T:=Q)) : Server (T:=Q) :=
  final_state
    (receive_worker_update w FedAvgServerRoni "A" (Packed 3 (model 2)) registered_AB).

(** B's value 10 with 1 sample is stored and counted: the threshold is
    reached with contributors A and B. *)
Definition B_recorded (w : World (T:=Q)) : Server (T:=Q) :=
  recorded w "B" 1 (model 10) (A_submitted w).

(** The threshold-2 scenario of A, B and C: A and B have submitted 5 samples
    each, C has not submitted. *)
Definition ABC_B_recorded : Server (T:=Q) :=
  recorded world "B" 5 (model 10)
    (final_state
       (receive_worker_update world FedAvgServerRoni "A" (Packed 5 (model 2))
          registered_ABC)).

(** Threshold 1 and a single worker, whose update is stored and counted. *)
Definition A_alone : Server (T:=Q) :=
  recorded world "A" 3 (model 2)
    (final_state (register_worker "A" (init (model 0) 1))).

(** The same once the worker has been unregistered: the counter is at the
    threshold and no record is left. *)
Definition A_gone : Server (T:=Q) :=
  final_state (unregister_worker "A" A_alone).

End Demo.

(** ** Further vocabulary: runs of calls, timestamps, the audit store *)

From Stdlib Require Import Ascii Permutation Lqa.

Section Runs.
Context {T : Type} `{TensorOps T}.
Variable W : World (T:=T).

(** States reached from [s0] by calls of the transport layer. *)
Inductive reachable_from (cls : ServerClass) (s0 : Server (T:=T))
  : Server (T:=T) -> Prop :=
| reachable_from_start : reachable_from cls s0 s0
| reachable_from_call s c :
    reachable_from cls s0 s -> reachable_from cls s0 (after_call W cls c s).

(** Every stored timestamp is a reading the clock has already given. *)
Definition stamps_read (s : Server (T:=T)) : Prop :=
  forall wid ts sz model,
    In (wid, Some (ts, sz, model)) (worker_updates s) ->
    exists n, (n < clock_reads s)%nat /\ ts = clock W n.

(** Successive clock readings differ. *)
Definition clock_increasing : Prop := forall n, clock W n < clock W (S n).

(** Every entry of an audit document carries the timestamp [stamp]. *)
Definition all_stamped (stamp : Z) (run : Dict.t RoniEntry) : Prop :=
  forall k e, In (k, e) run -> model_start_timestamp e = stamp.

End Runs.

(** ** [FedAvgServer] with its missing names bound, on the rationals *)

Module DemoBase.
Local Open Scope string_scope.

(** An audit trainer, set up from ['roni_config'], whose [test()] raises on
    every model whose parameter ["w"] is [10]. *)
Definition failing_trainer (sd : StateDict (T:=Q)) : result Perf :=
  match Dict.get "w" sd with
  | Some v => if Qeq_bool v 10 then raise EvaluationError else ok Demo.perf
  | None => ok Demo.perf
  end.

Definition world : World (T:=Q) :=
  {| WID_LEN := 8;
     clock := fun n => datetime_1980_10_10 + 1 + Z.of_nat n;
     trainer_test := fun _ => ok Demo.perf;
     roni_test := fun _ => ok Demo.perf;
     roni_config_trainer := ok failing_trainer;
     gen_agg_model_global := Some gen_agg_model |}.

(** The calls of the threshold-2 round of A and B. *)
Definition submit_A : Call (T:=Q) := CallReceive "A" (Packed 3 (Demo.model 2)).
Definition submit_B : Call (T:=Q) := CallReceive "B" (Packed 1 (Demo.model 10)).

End DemoBase.

(** ** [worker_key_pair_tool.py]

    PyNaCl is used through key generation, hex encoding and decoding of
    keys, signing and verification; the file system is a dictionary from
    file names to contents, in which a file can always be opened for
    writing and a missing file cannot be opened for reading. *)

Module KeyPairTool.

Definition GENERATE_MODE : string := "generate".
Definition VERIFY_MODE : string := "verify".

(** The operations of [nacl.signing] the tool calls. *)
Class Nacl : Type := {
  SigningKey : Type;
  VerifyKey : Type;
  SignedMessage : Type;
  (** [SigningKey.generate()], by the randomness it draws *)
  generate : nat -> SigningKey;
  (** [sk.verify_key] *)
  verify_key : SigningKey -> VerifyKey;
  (** [key.encode(encoder=HexEncoder).decode('utf-8')] *)
  encode_signing_key : SigningKey -> string;
  encode_verify_key : VerifyKey -> string;
  (** [SigningKey(hex, encoder=HexEncoder)]; [None] when it raises *)
  decode_signing_key : string -> option SigningKey;
  (** [VerifyKey(hex, encoder=HexEncoder)]; [None] when it raises *)
  decode_verify_key : string -> option VerifyKey;
  (** [sk.sign(message)] *)
  sign : SigningKey -> string -> SignedMessage;
  (** [vk.verify(signed)]; [false] when it raises [BadSignatureError] *)
  verify : VerifyKey -> SignedMessage -> bool
}.

Inductive ToolError : Type :=
| FileNotFound (name : string)    (* [open(name, 'r')] on a missing file *)
| InvalidKey (name : string).     (* the key constructor rejects the file's content *)

Section Tool.
Context {N : Nacl}.

Definition Files : Type := Dict.t string.

(** [gen_pair(filename)]: the files after the call and the pair returned.
    Each [open(..., 'w')] creates or truncates its file before the key is
    written to it. *)
Definition gen_pair (seed : nat) (filename : string) (fs : Files)
  : Files * (SigningKey * VerifyKey) :=
  let fs := Dict.set filename EmptyString fs in
  let sk := generate seed in
  let hex_seed := encode_signing_key sk in
  let fs := Dict.set filename hex_seed fs in
  let pub_filename := (filename ++ ".pub")%string in
  let fs := Dict.set pub_filename EmptyString fs in
  let vk := verify_key sk in
  let hex_seed := encode_verify_key vk in
  let fs := Dict.set pub_filename hex_seed fs in
  (fs, (sk, vk)).

(** [verify_pair(filename)] *)
Definition verify_pair (filename : string) (fs : Files) : bool + ToolError :=
  match Dict.get filename fs with
  | None => inr (FileNotFound filename)
  | Some hex_read =>
      match decode_signing_key hex_read with
      | None => inr (InvalidKey filename)
      | Some sk_read =>
          let pub_filename := (filename ++ ".pub")%string in
          match Dict.get pub_filename fs with
          | None => inr (FileNotFound pub_filename)
          | Some hex_read =>
              match decode_verify_key hex_read with
              | None => inr (InvalidKey pub_filename)
              | Some vk_read =>
                  let phrase_to_sign := "phrase to sign"%string in
                  let signed_phrase := sign sk_read phrase_to_sign in
                  if verify vk_read signed_phrase then inl true else inl false
              end
          end
      end
  end.

(** [run()], on what [get_args()] returned: [None], or the sub-command and
    the [--filename] argument.  The result is the file system after the
    call, or the error raised. *)
Definition run (seed : nat) (args : option (string * string)) (fs : Files)
  : Files + ToolError :=
  match args with
  | None => inl fs
  | Some (command, filename) =>
      if String.eqb command GENERATE_MODE then inl (fst (gen_pair seed filename fs))
      else if String.eqb command VERIFY_MODE then
        match verify_pair filename fs with
        | inl _ => inl fs
        | inr e => inr e
        end
      else inl fs
  end.

End Tool.

(** A toy signature scheme: keys are numbers written in unary, the public
    key is the successor of the private one, a signature names its signer. *)
Fixpoint unary (n : nat) : string :=
  match n with
  | O => EmptyString
  | S m => String "1"%char (unary m)
  end.

Fixpoint read_unary (s : string) : option nat :=
  match s with
  | EmptyString => Some O
  | String c r =>
      if Ascii.eqb c "1"%char
      then match read_unary r with Some n => Some (S n) | None => None end
      else None
  end.

Definition toy : Nacl :=
  {| SigningKey := nat;
     VerifyKey := nat;
     SignedMessage := nat * string;
     generate := fun seed => seed;
     verify_key := S;
     encode_signing_key := unary;
     encode_verify_key := unary;
     decode_signing_key := read_unary;
     decode_verify_key := read_unary;
     sign := fun sk m => (S sk, m);
     verify := fun vk signed => Nat.eqb vk (fst signed) |}.

End KeyPairTool.

(** * Proofs *)

Unset Implicit Arguments.

(** ** Dictionaries *)

Module DictFacts.
Section Facts.
Variable V : Type.
Implicit Types (d : Dict.t V) (k : string) (v : V).

Lemma get_set_same k v d : Dict.get k (Dict.set k v d) = Some v.
Proof.
  induction d as [|[k' v'] r IH]; simpl.
  - now rewrite String.eqb_refl.
  - destruct (String.eqb k k') eqn:E; simpl; rewrite E; auto.
Qed.

Lemma get_set_other k k' v d :
  k <> k' -> Dict.get k' (Dict.set k v d) = Dict.get k' d.
Proof.
  intros Hne. induction d as [|[k0 v0] r IH]; simpl.
  - destruct (String.eqb k' k) eqn:E; auto.
    apply String.eqb_eq in E. congruence.
  - destruct (String.eqb k k0) eqn:E; simpl.
    + apply String.eqb_eq in E. subst k0.
      destruct (String.eqb k' k) eqn:E'; auto.
      apply String.eqb_eq in E'. congruence.
    + destruct (String.eqb k' k0); auto.
Qed.

Lemma get_set k k' v d :
  Dict.get k' (Dict.set k v d) = if String.eqb k' k then Some v else Dict.get k' d.
Proof.
  destruct (String.eqb k' k) eqn:E.
  - apply String.eqb_eq in E. subst. apply get_set_same.
  - apply get_set_other. intros ->. now rewrite String.eqb_refl in E.
Qed.

Lemma keys_set_mem k v d :
  Dict.mem k d = true -> Dict.keys (Dict.set k v d) = Dict.keys d.
Proof.
  unfold Dict.mem, Dict.keys. induction d as [|[k' v'] r IH]; simpl; [discriminate|].
  destruct (String.eqb k k') eqn:E; simpl; intros H; [reflexivity|].
  now rewrite IH.
Qed.

Lemma keys_set_fresh k v d :
  Dict.mem k d = false -> Dict.keys (Dict.set k v d) = Dict.keys d ++ [k].
Proof.
  unfold Dict.mem, Dict.keys. induction d as [|[k' v'] r IH]; simpl; [reflexivity|].
  destruct (String.eqb k k') eqn:E; simpl; intros H; [discriminate|].
  now rewrite IH.
Qed.

Lemma mem_In k d : Dict.mem k d = true <-> In k (Dict.keys d).
Proof.
  unfold Dict.mem, Dict.keys. induction d as [|[k' v'] r IH]; simpl.
  - split; [discriminate | tauto].
  - destruct (String.eqb k k') eqn:E.
    + apply String.eqb_eq in E. subst. tauto.
    + rewrite IH. split; [tauto|]. intros [->|H]; auto.
      now rewrite String.eqb_refl in E.
Qed.

Lemma get_In k d v : Dict.get k d = Some v -> In (k, v) d.
Proof.
  induction d as [|[k' v'] r IH]; simpl; [discriminate|].
  destruct (String.eqb k k') eqn:E; intros H.
  - apply String.eqb_eq in E. left. congruence.
  - right. auto.
Qed.

Lemma get_None_not_In k d : Dict.get k d = None <-> ~ In k (Dict.keys d).
Proof.
  rewrite <- mem_In. unfold Dict.mem. destruct (Dict.get k d); split; congruence.
Qed.

End Facts.
End DictFacts.

(** ** The aggregate is the weighted mean *)

Section WeightedMeanFacts.
Context {T : Type} `{TensorOps T}.

Lemma column_length key (cs : list (StateDict (T:=T) * Z)) col :
  column key cs = Some col -> map snd col = map snd cs.
Proof.
  revert col. induction cs as [|[sd sz] r IH]; simpl; intros col Hc.
  - now inversion Hc.
  - destruct (Dict.get key sd); [|discriminate].
    destruct (column key r) as [col'|]; [|discriminate].
    inversion Hc; subst. simpl. now rewrite (IH col').
Qed.

Lemma column_defined key (cs : list (StateDict (T:=T) * Z)) :
  (forall c, In c cs -> In key (Dict.keys (fst c))) ->
  exists col, column key cs = Some col.
Proof.
  induction cs as [|[sd sz] r IH]; simpl; intros Hk.
  - now exists [].
  - destruct IH as [col Hcol]; [intros c Hc; apply Hk; auto|].
    destruct (Dict.get key sd) as [v|] eqn:G.
    + rewrite Hcol. eauto.
    + apply DictFacts.get_None_not_In in G. exfalso. apply G.
      apply (Hk (sd, sz)). auto.
Qed.

Lemma agg_loop_column key (rest : list (StateDict (T:=T) * Z)) col acc :
  column key rest = Some col ->
  agg_loop key rest acc
  = ok (fold_left (fun a x => tadd a (tmul (fst x) (snd x))) col acc).
Proof.
  revert col acc. induction rest as [|[sd sz] r IH]; simpl; intros col acc Hc.
  - now inversion Hc.
  - unfold Dict.getitem. destruct (Dict.get key sd) as [v|]; [|discriminate].
    destruct (column key r) as [col'|]; [|discriminate].
    inversion Hc; subst. simpl. now apply IH.
Qed.

Lemma combine_tl_split {A B} (cs : list (A * B)) :
  combine (tl (map fst cs)) (tl (map snd cs)) = tl cs.
Proof.
  destruct cs as [|c r]; simpl; [reflexivity|].
  induction r as [|[a b] r IH]; simpl; [reflexivity|]. now rewrite IH.
Qed.

(** [agg_params] computes the weighted mean of the key's column. *)
Lemma agg_params_column key (cs : list (StateDict (T:=T) * Z)) col :
  cs <> [] ->
  column key cs = Some col ->
  exists m, weighted_mean col = Some m
            /\ agg_params key (map fst cs) (map snd cs) = ok m.
Proof.
  intros Hne Hc. destruct cs as [|[sd0 sz0] r]; [congruence|].
  pose proof (column_length _ _ _ Hc) as Hl.
  unfold agg_params. rewrite combine_tl_split. simpl in *.
  unfold Dict.getitem. destruct (Dict.get key sd0) as [v0|]; [|discriminate].
  destruct (column key r) as [col'|] eqn:Hr; [|discriminate].
  inversion Hc; subst col. simpl.
  rewrite (agg_loop_column _ _ _ _ Hr). simpl.
  eexists. split; [reflexivity|].
  unfold weighted_sum. simpl. simpl in Hl. now rewrite Hl.
Qed.

(** A missing key makes [agg_params] raise [KeyError]. *)
Lemma agg_loop_missing key (rest : list (StateDict (T:=T) * Z)) acc :
  column key rest = None -> agg_loop key rest acc = raise (KeyError key).
Proof.
  revert acc. induction rest as [|[sd sz] r IH]; simpl; intros acc Hc.
  - discriminate.
  - unfold Dict.getitem. destruct (Dict.get key sd) as [v|]; [|reflexivity].
    simpl. apply IH. destruct (column key r); [discriminate|reflexivity].
Qed.

Lemma agg_keys_spec (sds : list (StateDict (T:=T))) szs ks :
  forall acc,
    (forall k, In k ks -> exists v, agg_params k sds szs = ok v) ->
    exists d, agg_keys ks sds szs acc = ok d
              /\ (forall k, In k ks ->
                    exists v, agg_params k sds szs = ok v /\ Dict.get k d = Some v)
              /\ (forall k, ~ In k ks -> Dict.get k d = Dict.get k acc).
Proof.
  induction ks as [|k0 r IH]; simpl; intros acc Hall.
  - exists acc. repeat split; auto. intros k [].
  - destruct (Hall k0) as [v0 Hv0]; auto. rewrite Hv0. simpl.
    destruct (IH (Dict.set k0 v0 acc)) as (d & Hd & Hin & Hout);
      [intros k Hk; apply Hall; auto|].
    exists d. split; [exact Hd|]. split.
    + intros k [<-|Hk].
      * exists v0. split; [exact Hv0|].
        destruct (in_dec string_dec k0 r) as [Hr|Hr].
        -- destruct (Hin _ Hr) as (v & Hv & Hg). congruence.
        -- rewrite (Hout _ Hr). apply DictFacts.get_set_same.
      * now apply Hin.
    + intros k Hk. rewrite Hout by tauto.
      apply DictFacts.get_set_other. tauto.
Qed.

Lemma agg_keys_keys (sds : list (StateDict (T:=T))) szs ks :
  forall acc d,
    NoDup ks -> (forall k, In k ks -> ~ In k (Dict.keys acc)) ->
    agg_keys ks sds szs acc = ok d -> Dict.keys d = Dict.keys acc ++ ks.
Proof.
  induction ks as [|k0 r IH]; simpl; intros acc d Hnd Hfresh Hd.
  - inversion Hd. now rewrite app_nil_r.
  - destruct (agg_params k0 sds szs) as [v0|e]; [|discriminate]. simpl in Hd.
    inversion Hnd as [|? ? Hk0 Hr]; subst.
    assert (Hk : Dict.keys (Dict.set k0 v0 acc) = Dict.keys acc ++ [k0]).
    { apply DictFacts.keys_set_fresh.
      destruct (Dict.mem k0 acc) eqn:E; [|reflexivity].
      apply DictFacts.mem_In in E. exfalso. apply (Hfresh k0); auto. }
    rewrite (IH (Dict.set k0 v0 acc) d Hr); [| |exact Hd].
    + rewrite Hk, <- app_assoc. reflexivity.
    + intros k Hin. rewrite Hk, in_app_iff. simpl.
      intros [Hacc|[->|[]]]; [apply (Hfresh k); auto | contradiction].
Qed.

(** [gen_agg_model] over contributors with one key set: every key of the
    first contributor gets the weighted mean of its column, and no other
    key is present. *)
Lemma gen_agg_model_weighted_mean (cs : list (StateDict (T:=T) * Z)) c0 :
  hd_error cs = Some c0 ->
  same_key_set cs ->
  exists d, gen_agg_model (map fst cs) (map snd cs) = ok d
    /\ (forall k, In k (Dict.keys (fst c0)) ->
          exists col m, column k cs = Some col
                        /\ weighted_mean col = Some m
                        /\ Dict.get k d = Some m)
    /\ (forall k, ~ In k (Dict.keys (fst c0)) -> Dict.get k d = None)
    /\ (NoDup (Dict.keys (fst c0)) -> Dict.keys d = Dict.keys (fst c0)).
Proof.
  intros Hhd Hsame. destruct cs as [|c r]; [discriminate|].
  simpl in Hhd. inversion Hhd; subst c0.
  assert (Hne : c :: r <> []) by discriminate.
  assert (Hcol : forall k, In k (Dict.keys (fst c)) ->
                   exists col, column k (c :: r) = Some col).
  { intros k Hk. apply column_defined. intros c' Hc'.
    apply (Hsame c c' eq_refl Hc'). exact Hk. }
  unfold gen_agg_model. cbn [map].
  destruct (agg_keys_spec (fst c :: map fst r) (snd c :: map snd r)
              (Dict.keys (fst c)) []) as (d & Hd & Hin & Hout).
  { intros k Hk. destruct (Hcol k Hk) as [col Hc].
    destruct (agg_params_column k _ _ Hne Hc) as (m & _ & Hm).
    exists m. exact Hm. }
  exists d. split; [exact Hd|]. split; [|split].
  - intros k Hk. destruct (Hcol k Hk) as [col Hc].
    destruct (agg_params_column k _ _ Hne Hc) as (m & Hw & Hm).
    destruct (Hin k Hk) as (v & Hv & Hg).
    exists col, m. cbn [map] in Hm. split; [exact Hc|]. split; [exact Hw|].
    congruence.
  - intros k Hk. now rewrite (Hout k Hk).
  - intros Hnd.
    apply agg_keys_keys in Hd; [exact Hd | exact Hnd | intros k _ []].
Qed.


End WeightedMeanFacts.

(** ** What [agg_model] changes and what it leaves alone *)

Ltac run_step :=
  unfold bind, lift, modify, self, ret, now, datetime_now; cbn.

Section ServerFacts.
Context {T : Type} `{TensorOps T}.
Variable W : World (T:=T).
Implicit Types (s : Server (T:=T)).

Lemma same_round_refl s : same_round s s.
Proof. unfold same_round. tauto. Qed.

Lemma same_round_trans s1 s2 s3 :
  same_round s1 s2 -> same_round s2 s3 -> same_round s1 s3.
Proof.
  unfold same_round. intros (a1 & a2 & a3 & a4 & a5 & a6 & a7)
    (b1 & b2 & b3 & b4 & b5 & b6 & b7).
  repeat split; congruence.
Qed.

Lemma roni_loop_frame indices sds szs wids stamp :
  forall run s,
    let s' := final_state (roni_loop W indices sds szs wids stamp run s) in
    same_round s s'
    /\ global_model s' = global_model s
    /\ clock_reads s' = clock_reads s.
Proof.
  induction indices as [|i rest IH]; intros run s; cbn.
  - split; [apply same_round_refl | split; reflexivity].
  - run_step.
    destruct (gen_agg_model (drop_index i sds) (drop_index i szs)) as [sub|e]; cbn.
    + destruct (roni_test W sub) as [perf|e]; cbn.
      * match goal with
        | |- context [roni_loop W rest sds szs wids stamp ?r ?s0] =>
            destruct (IH r s0) as (Hr & Hg & Hc)
        end.
        split; [|split]; [|exact Hg|exact Hc].
        eapply same_round_trans; [|exact Hr].
        unfold same_round; cbn; tauto.
      * split; [unfold same_round; cbn; tauto | split; reflexivity].
    + split; [apply same_round_refl | split; reflexivity].
Qed.

Lemma base_loop_frame indices sds szs trainer :
  forall s,
    let s' := final_state (base_loop W indices sds szs trainer s) in
    same_round s s'
    /\ roni_model s' = roni_model s
    /\ clock_reads s' = clock_reads s.
Proof.
  induction indices as [|i rest IH]; intros s; cbn.
  - split; [apply same_round_refl | split; reflexivity].
  - run_step.
    destruct (gen_agg_model_global W) as [gen|]; cbn;
      [|split; [apply same_round_refl | split; reflexivity]].
    destruct (gen (drop_index i sds) (drop_index i szs)) as [sub|e]; cbn;
      [|split; [apply same_round_refl | split; reflexivity]].
    destruct (trainer sub) as [perf|e]; cbn.
    + match goal with
      | |- context [base_loop W rest sds szs trainer ?s0] =>
          destruct (IH s0) as (Hr & Hg & Hc)
      end.
      split; [|split]; [|exact Hg|exact Hc].
      eapply same_round_trans; [|exact Hr].
      unfold same_round; cbn; tauto.
    + split; [unfold same_round; cbn; tauto | split; reflexivity].
Qed.

(** [FedAvgServerRoni]: past the threshold, either the aggregation is
    carried out, or an exception leaves the round and the global model as
    they were. *)
Lemma aggregate_roni_spec s :
  match aggregate_roni W s with
  | Return b s' => b = true /\ aggregated W s s'
  | Raise e s' =>
      same_round s s' /\ global_model s' = global_model s
      /\ (clock_reads s <= clock_reads s')%nat
  end.
Proof.
  unfold aggregate_roni. run_step.
  destruct (gather (worker_updates s) (last_global_model_update_timestamp s))
    as [[[sds szs] wids]|e] eqn:G; cbn;
    [|split; [apply same_round_refl | split; [reflexivity | lia]]].
  match goal with
  | |- context [roni_loop W ?ix sds szs wids ?st ?r ?s0] =>
      pose proof (roni_loop_frame ix sds szs wids st r s0) as HL;
      destruct (roni_loop W ix sds szs wids st r s0) as [run s1|e s1]
  end; cbn in HL; destruct HL as (Hr & Hg & Hc);
    destruct Hr as (r1 & r2 & r3 & r4 & r5 & r6 & r7); cbn in *;
    [|split; [unfold same_round; tauto | split; [exact Hg | lia]]].
  destruct (gen_agg_model sds szs) as [d|e] eqn:D; cbn;
    [|split; [unfold same_round; tauto | split; [exact Hg | lia]]].
  destruct (roni_test W d) as [perf|e]; cbn;
    [|split; [unfold same_round; cbn; tauto | split; [exact Hg | lia]]].
  split; [reflexivity|].
  exists sds, szs, wids. cbn. repeat split; try congruence.
  exists (clock_reads s1). repeat split; lia.
Qed.

(** [FedAvgServer]: the same, except that an exception may leave a
    leave-one-out model in the trainer. *)
Lemma aggregate_base_spec s :
  match aggregate_base W s with
  | Return b s' => b = true /\ aggregated W s s'
  | Raise e s' => same_round s s' /\ clock_reads s' = clock_reads s
  end.
Proof.
  unfold aggregate_base. run_step.
  destruct (gather (worker_updates s) (last_global_model_update_timestamp s))
    as [[[sds szs] wids]|e] eqn:G; cbn;
    [|split; [apply same_round_refl | reflexivity]].
  destruct (roni_config_trainer W) as [trainer|e]; cbn;
    [|split; [apply same_round_refl | reflexivity]].
  match goal with
  | |- context [base_loop W ?ix sds szs trainer ?s0] =>
      pose proof (base_loop_frame ix sds szs trainer s0) as HL;
      destruct (base_loop W ix sds szs trainer s0) as [u s1|e s1]
  end; cbn in HL; destruct HL as (Hr & Hg & Hc);
    destruct Hr as (r1 & r2 & r3 & r4 & r5 & r6 & r7); cbn in *;
    [|split; [unfold same_round; tauto | exact Hc]].
  destruct (gen_agg_model sds szs) as [d|e] eqn:D; cbn;
    [|split; [unfold same_round; tauto | exact Hc]].
  split; [reflexivity|].
  exists sds, szs, wids. cbn. repeat split; try congruence.
  exists (clock_reads s1). repeat split; lia.
Qed.

(** Both classes: what any call of [agg_model] can do. *)
Lemma agg_model_spec cls s :
  match agg_model W cls s with
  | Return true s' =>
      update_lim s <= unique_updates_since_last_agg s /\ aggregated W s s'
  | Return false s' =>
      unique_updates_since_last_agg s < update_lim s /\ s' = s
  | Raise e s' =>
      update_lim s <= unique_updates_since_last_agg s /\ same_round s s'
      /\ (clock_reads s <= clock_reads s')%nat
  end.
Proof.
  cbv beta iota delta [agg_model bind self ret].
  destruct (Z.ltb_spec (unique_updates_since_last_agg s) (update_lim s)) as [Hlt|Hge].
  - split; [exact Hlt | reflexivity].
  - destruct cls; cbv beta iota delta [aggregate].
    + pose proof (aggregate_base_spec s) as HS.
      destruct (aggregate_base W s) as [b s'|e s'].
      * destruct HS as (-> & Ha). split; assumption.
      * destruct HS as (Hr & Hc). split; [assumption|split; [assumption|lia]].
    + pose proof (aggregate_roni_spec s) as HS.
      destruct (aggregate_roni W s) as [b s'|e s'].
      * destruct HS as (-> & Ha). split; assumption.
      * destruct HS as (Hr & _ & Hc). split; [assumption|split; assumption].
Qed.

End ServerFacts.

(** ** Gathering contributors and receiving updates *)

Section ReceiveFacts.
Context {T : Type} `{TensorOps T}.
Variable W : World (T:=T).
Implicit Types (s : Server (T:=T)) (items : Dict.t (option (WorkerUpdate (T:=T)))).

(** A registered worker without a stored update makes the gathering loop
    raise. *)
Lemma gather_None items last wid :
  In (wid, None) items -> gather items last = raise TypeError.
Proof.
  induction items as [|[wi [[[ts sz] m]|]] r IH]; cbn; intros Hin.
  - destruct Hin.
  - destruct Hin as [Heq|Hin]; [discriminate|].
    rewrite (IH Hin). reflexivity.
  - reflexivity.
Qed.

(** Without such a worker it returns the contributors, in registry order. *)
Lemma gather_contributors items last :
  (forall wid, ~ In (wid, None) items) ->
  gather items last
  = ok (map (fun c => fst (snd c)) (contributors_of items last),
        map (fun c => snd (snd c)) (contributors_of items last),
        map fst (contributors_of items last)).
Proof.
  induction items as [|[wi [[[ts sz] m]|]] r IH]; cbn; intros Hn.
  - reflexivity.
  - rewrite IH by (intros wid Hin; apply (Hn wid); auto). cbn.
    destruct (last <? ts); reflexivity.
  - exfalso. apply (Hn wi). auto.
Qed.

Lemma gather_ok_inv items last sds szs wids :
  gather items last = ok (sds, szs, wids) ->
  (forall wid, ~ In (wid, None) items)
  /\ sds = map (fun c => fst (snd c)) (contributors_of items last)
  /\ szs = map (fun c => snd (snd c)) (contributors_of items last)
  /\ wids = map fst (contributors_of items last).
Proof.
  intros G.
  assert (Hn : forall wid, ~ In (wid, None) items).
  { intros wid Hin. rewrite (gather_None _ _ _ Hin) in G. discriminate. }
  split; [exact Hn|].
  rewrite (gather_contributors _ last Hn) in G. inversion G. auto.
Qed.

(** Membership in the contributor set: a stored record strictly later than
    the start of the round. *)
Lemma contributors_of_In items last wid model sz :
  In (wid, (model, sz)) (contributors_of items last)
  <-> exists ts, In (wid, Some (ts, sz, model)) items /\ last < ts.
Proof.
  induction items as [|[wi [[[ts0 sz0] m0]|]] r IH]; cbn.
  - split; [tauto | intros (ts & [] & _)].
  - destruct (Z.ltb_spec last ts0) as [Hlt|Hge]; cbn; rewrite IH; split.
    + intros [Heq|(ts & Hin & Hts)].
      * inversion Heq; subst. exists ts0. auto.
      * exists ts. auto.
    + intros (ts & [Heq|Hin] & Hts).
      * inversion Heq; subst. auto.
      * right. exists ts. auto.
    + intros (ts & Hin & Hts). exists ts. auto.
    + intros (ts & [Heq|Hin] & Hts).
      * inversion Heq; subst. lia.
      * exists ts. auto.
  - rewrite IH. split.
    + intros (ts & Hin & Hts). exists ts. auto.
    + intros (ts & [Heq|Hin] & Hts); [discriminate|]. exists ts. auto.
Qed.

Lemma mem_getitem {V} k (d : Dict.t V) :
  Dict.mem k d = true -> exists v, Dict.get k d = Some v.
Proof.
  unfold Dict.mem. destruct (Dict.get k d) as [v|]; [eauto | discriminate].
Qed.

(** An update from an unknown worker is answered and ignored. *)
Lemma receive_unregistered cls wid u s :
  Dict.mem wid (worker_updates s) = false ->
  receive_worker_update W cls wid u s
  = Return "Please register before sending an update."%string s.
Proof.
  intros Hm. unfold receive_worker_update, bind, self. cbn. rewrite Hm. reflexivity.
Qed.

(** A decoded update from a registered worker is stored, then [agg_model]
    runs on the state with the update stored; [global_model_trainer.test()]
    follows a successful aggregation. *)
Lemma receive_registered cls wid update_size model s :
  Dict.mem wid (worker_updates s) = true ->
  receive_worker_update W cls wid (Packed update_size model) s
  = match agg_model W cls (recorded W wid update_size model s) with
    | Return true s' =>
        match trainer_test W (global_model s') with
        | inl _ => Return (update_received W wid) s'
        | inr e => Raise e s'
        end
    | Return false s' => Return (update_received W wid) s'
    | Raise e s' => Raise e s'
    end.
Proof.
  intros Hm. destruct (mem_getitem _ _ Hm) as [stored Hg].
  unfold receive_worker_update.
  cbv beta iota delta [bind self]. rewrite Hm.
  unfold Dict.getitem. rewrite Hg. cbv beta iota delta [lift bind].
  assert (Hrec :
    forall s0,
      s0 = (if match stored with
               | Some (ts, _, _) => ts <? last_global_model_update_timestamp s
               | None => true
               end
            then set_unique_updates_since_last_agg s
                   (unique_updates_since_last_agg s + 1)
            else s) ->
      set_worker_updates (snd (datetime_now W s0))
        (Dict.set wid (Some (fst (datetime_now W s0), update_size, model))
           (worker_updates (snd (datetime_now W s0))))
      = recorded W wid update_size model s).
  { intros s0 ->. unfold recorded, counts_as_new. rewrite Hg.
    destruct stored as [[[ts sz] m]|]; [destruct (ts <? _)|]; cbn;
      unfold set_worker_updates; cbn; f_equal; try lia. }
  destruct stored as [[[ts sz] m]|];
    [destruct (ts <? last_global_model_update_timestamp s) eqn:E|];
    cbv beta iota delta [modify ret unpackb lift now bind torch_load];
    cbn [datetime_now];
    match goal with
    | |- context [agg_model W cls ?s1] =>
        replace s1 with (recorded W wid update_size model s)
    end;
    try (destruct (agg_model W cls (recorded W wid update_size model s))
           as [[|] s'|e s']; cbn; try reflexivity;
         destruct (trainer_test W (global_model s')); reflexivity);
    rewrite <- (Hrec _ eq_refl); try rewrite E; reflexivity.
Qed.

(** Undecodable bytes from a registered worker: the call raises once the
    counter has been moved, and the stored record stays. *)
Lemma receive_malformed cls wid s :
  Dict.mem wid (worker_updates s) = true ->
  receive_worker_update W cls wid Malformed s
  = Raise UnpackError
      (if counts_as_new s wid
       then set_unique_updates_since_last_agg s
              (unique_updates_since_last_agg s + 1)
       else s).
Proof.
  intros Hm. destruct (mem_getitem _ _ Hm) as [stored Hg].
  unfold receive_worker_update, counts_as_new.
  cbv beta iota delta [bind self]. rewrite Hm.
  unfold Dict.getitem. rewrite Hg. cbv beta iota delta [lift bind].
  destruct stored as [[[ts sz] m]|];
    [destruct (ts <? last_global_model_update_timestamp s)|]; reflexivity.
Qed.

End ReceiveFacts.

(** ** The threshold and the model version *)

Section Threshold.
Context {T : Type} `{TensorOps T}.
Variable W : World (T:=T).
Implicit Types (s : Server (T:=T)).

Lemma agg_model_deferred cls s :
  unique_updates_since_last_agg s < update_lim s ->
  agg_model W cls s = Return false s.
Proof.
  intros Hlt. pose proof (agg_model_spec W cls s) as HS.
  destruct (agg_model W cls s) as [[|] s'|e s'].
  - destruct HS as (Hge & _). lia.
  - destruct HS as (_ & ->). reflexivity.
  - destruct HS as (Hge & _). lia.
Qed.

Lemma agg_model_triggered cls s :
  update_lim s <= unique_updates_since_last_agg s ->
  agg_model W cls s = aggregate W cls s.
Proof.
  intros Hge. cbv beta iota delta [agg_model bind self ret].
  destruct (Z.ltb_spec (unique_updates_since_last_agg s) (update_lim s));
    [lia | reflexivity].
Qed.

(** C10. In every state whose [unique_updates_since_last_agg] is strictly
    below [update_lim], [agg_model] (of either class) returns [False] and
    the state it leaves is the state it was called in, component by
    component: [worker_updates], the trainer's global model,
    [last_global_model_update_timestamp], [unique_updates_since_last_agg],
    [iteration] and [model_version]. *)
Theorem C10_agg_model_below_threshold cls s :
  unique_updates_since_last_agg s < update_lim s ->
  agg_model W cls s = Return false s.
Proof.
  intros Hlt. unfold agg_model, bind, self, ret.
  apply Z.ltb_lt in Hlt. rewrite Hlt. reflexivity.
Qed.

(** C9. [model_version] grows by exactly one in every call of [agg_model]
    that returns [True], and is unchanged by a call that returns [False] or
    raises; [is_global_model_most_recent v] is [True] exactly when [v] is
    the current [model_version], whatever integer [v] is. *)
Theorem C9_model_version cls s :
  match agg_model W cls s with
  | Return true s' => model_version s' = model_version s + 1
  | Return false s' => model_version s' = model_version s
  | Raise _ s' => model_version s' = model_version s
  end
  /\ forall v : Z, is_global_model_most_recent s v = true <-> v = model_version s.
Proof.
  split.
  - pose proof (agg_model_spec W cls s) as HS.
    destruct (agg_model W cls s) as [[|] s'|e s'].
    + destruct HS as (_ & sds & szs & wids & _ & _ & _ & _ & _ & _ & Hv & _).
      exact Hv.
    + destruct HS as (_ & ->). reflexivity.
    + destruct HS as (_ & Hr & _). apply Hr.
  - intros v. unfold is_global_model_most_recent. rewrite Z.eqb_eq.
    split; congruence.
Qed.


End Threshold.

(** ** Aggregations that cannot complete *)

Section Aborts.
Context {T : Type} `{TensorOps T}.
Variable W : World (T:=T).
Implicit Types (s : Server (T:=T)).

Lemma drop_index_map {A B} (f : A -> B) i (l : list A) :
  drop_index i (map f l) = map f (drop_index i l).
Proof.
  revert i. induction l as [|x r IH]; intros [|i]; cbn; try reflexivity.
  now rewrite IH.
Qed.

Lemma drop_index_In {A} i (l : list A) x : In x (drop_index i l) -> In x l.
Proof.
  revert i. induction l as [|y r IH]; intros [|i]; cbn; auto.
  intros [->|Hin]; eauto.
Qed.

Lemma drop_index_length {A} i (l : list A) :
  (i < List.length l)%nat -> List.length (drop_index i l) = pred (List.length l).
Proof.
  revert i. induction l as [|y r IH]; intros [|i]; cbn; intros Hi; try lia.
  rewrite IH by lia. destruct r; cbn in *; lia.
Qed.

(** The leave-one-out loop stops at the first evaluation that raises. *)
Lemma roni_loop_raises sds szs wids stamp before i rest d e :
  forall run s,
    (forall j, In j before ->
       exists dj pj, gen_agg_model (drop_index j sds) (drop_index j szs) = ok dj
                     /\ roni_test W dj = ok pj) ->
    gen_agg_model (drop_index i sds) (drop_index i szs) = ok d ->
    roni_test W d = raise e ->
    exists s',
      roni_loop W (before ++ i :: rest) sds szs wids stamp run s = Raise e s'
      /\ same_round s s'
      /\ global_model s' = global_model s
      /\ roni_model s' = Some d
      /\ clock_reads s' = clock_reads s.
Proof.
  induction before as [|j before IH]; intros run s Hbefore Hd He; cbn.
  - run_step. rewrite Hd. cbn. rewrite He. cbn.
    eexists. split; [reflexivity|]. unfold same_round. cbn. tauto.
  - run_step. destruct (Hbefore j) as (dj & pj & Hdj & Hpj); [now left|].
    rewrite Hdj. cbn. rewrite Hpj. cbn.
    match goal with
    | |- context [roni_loop W _ sds szs wids stamp ?r ?s0] =>
        destruct (IH r s0) as (s' & Hrun & Hr & Hg & Hm & Hc);
          [intros j' Hj'; apply Hbefore; now right | exact Hd | exact He |]
    end.
    exists s'. split; [exact Hrun|]. split; [|tauto].
    eapply same_round_trans; [|exact Hr]. unfold same_round. cbn. tauto.
Qed.

(** When it returns, every leave-one-out model was built and evaluated. *)
Lemma roni_loop_returns sds szs wids stamp indices :
  forall run s run' s',
    roni_loop W indices sds szs wids stamp run s = Return run' s' ->
    forall i, In i indices ->
      exists d perf, gen_agg_model (drop_index i sds) (drop_index i szs) = ok d
                     /\ roni_test W d = ok perf.
Proof.
  induction indices as [|j rest IH]; intros run s run' s' Hrun i Hi.
  - destruct Hi.
  - cbn in Hrun. revert Hrun. run_step.
    destruct (gen_agg_model (drop_index j sds) (drop_index j szs)) as [dj|e] eqn:Hdj;
      cbn; [|discriminate].
    destruct (roni_test W dj) as [pj|e] eqn:Hpj; cbn; [|discriminate].
    intros Hrun. destruct Hi as [<-|Hi].
    + exists dj, pj. auto.
    + eapply IH; eauto.
Qed.

Lemma aggregate_roni_loop_raises s sds szs wids e s1 :
  gather (worker_updates s) (last_global_model_update_timestamp s)
  = ok (sds, szs, wids) ->
  roni_loop W (seq 0 (List.length wids)) sds szs wids (clock W (clock_reads s)) []
    (snd (datetime_now W s)) = Raise e s1 ->
  aggregate_roni W s = Raise e s1.
Proof.
  intros G Hloop. unfold datetime_now in Hloop. cbn in Hloop.
  unfold aggregate_roni. run_step. rewrite G. cbn. rewrite Hloop. reflexivity.
Qed.

Lemma aggregate_roni_returns s b s' :
  aggregate_roni W s = Return b s' ->
  exists sds szs wids run s1 perf,
    gather (worker_updates s) (last_global_model_update_timestamp s)
    = ok (sds, szs, wids)
    /\ roni_loop W (seq 0 (List.length wids)) sds szs wids
         (clock W (clock_reads s)) [] (snd (datetime_now W s)) = Return run s1
    /\ gen_agg_model sds szs = ok (global_model s')
    /\ roni_test W (global_model s') = ok perf.
Proof.
  unfold aggregate_roni, datetime_now. run_step.
  destruct (gather (worker_updates s) (last_global_model_update_timestamp s))
    as [[[sds szs] wids]|e] eqn:G; cbn; [|discriminate].
  match goal with
  | |- context [roni_loop W ?ix sds szs wids ?st ?r ?s0] =>
      destruct (roni_loop W ix sds szs wids st r s0) as [run s1|e s1] eqn:L
  end; cbn; [|discriminate].
  destruct (gen_agg_model sds szs) as [d|e] eqn:D; cbn; [|discriminate].
  destruct (roni_test W d) as [perf|e] eqn:P; cbn; [|discriminate].
  intros Hret. inversion Hret; subst. cbn.
  exists sds, szs, wids, run, s1, perf. auto.
Qed.

End Aborts.

Section AbortClaims.
Context {T : Type} `{TensorOps T}.
Variable W : World (T:=T).
Implicit Types (s : Server (T:=T)).

Lemma seq_split_at i n :
  (i < n)%nat -> seq 0 n = seq 0 i ++ i :: seq (S i) (n - S i).
Proof.
  intros Hi. replace n with (i + S (n - S i))%nat at 1 by lia.
  rewrite seq_app. reflexivity.
Qed.

(** C4 (what the code does). Once the threshold is reached, a registered
    worker that has not submitted (its record is [None]) makes [agg_model],
    in either class, raise [TypeError] before anything is aggregated: the
    worker is not skipped and the aggregation does not succeed. *)
Theorem C4_unsubmitted_worker_raises cls s wid :
  update_lim s <= unique_updates_since_last_agg s ->
  In (wid, None) (worker_updates s) ->
  agg_model W cls s = Raise TypeError s.
Proof.
  intros Hge Hin. rewrite (agg_model_triggered W cls s Hge).
  destruct cls; cbv beta iota delta [aggregate];
    [unfold aggregate_base | unfold aggregate_roni]; run_step;
    rewrite (gather_None _ _ _ Hin); reflexivity.
Qed.




(** C8. If the threshold is reached while no stored record is strictly
    later than [last_global_model_update_timestamp], [agg_model] (of either
    class) fails, and the failure leaves the global model,
    [unique_updates_since_last_agg], [iteration], [model_version], the
    registry and the round start unchanged.  The exception is the
    [IndexError] of indexing the empty list of models, unless a registered
    worker without record raised [TypeError] first or, in [FedAvgServer],
    the set-up of the audit trainer raised. *)
Theorem C8_no_contributors cls s :
  update_lim s <= unique_updates_since_last_agg s ->
  contributors s = [] ->
  exists e s',
    agg_model W cls s = Raise e s'
    /\ global_model s' = global_model s
    /\ unique_updates_since_last_agg s' = unique_updates_since_last_agg s
    /\ iteration s' = iteration s
    /\ model_version s' = model_version s
    /\ worker_updates s' = worker_updates s
    /\ last_global_model_update_timestamp s' = last_global_model_update_timestamp s
    /\ (e = IndexError
        \/ (e = TypeError /\ exists wid, In (wid, None) (worker_updates s))
        \/ (cls = FedAvgServer /\ roni_config_trainer W = raise e)).
Proof.
  intros Hge Hc. rewrite (agg_model_triggered W cls s Hge).
  destruct (gather (worker_updates s) (last_global_model_update_timestamp s))
    as [[[sds szs] wids]|e] eqn:G.
  - destruct (gather_ok_inv _ _ _ _ _ G) as (_ & -> & -> & ->).
    fold (contributors s) in *. rewrite Hc in G. cbn in G.
    destruct cls; cbv beta iota delta [aggregate];
      [unfold aggregate_base | unfold aggregate_roni]; run_step; rewrite G; cbn.
    + destruct (roni_config_trainer W) as [trainer|e] eqn:R; cbn.
      * exists IndexError. eexists. split; [reflexivity|]. cbn. repeat split. auto.
      * exists e. eexists. split; [reflexivity|]. repeat split. auto.
    + exists IndexError. eexists. split; [reflexivity|]. cbn. repeat split. auto.
  - assert (He : e = TypeError /\ exists wid, In (wid, None) (worker_updates s)).
    { clear Hc Hge. revert e G.
      induction (worker_updates s) as [|[wi [[[ts sz] m]|]] r IH]; cbn; intros e G.
      - discriminate.
      - destruct (gather r (last_global_model_update_timestamp s))
          as [[[a b] c]|e'] eqn:G'; cbn in G.
        + destruct (_ <? ts); discriminate.
        + inversion G; subst e'. destruct (IH e eq_refl) as (-> & wid & Hin).
          split; [reflexivity|]. exists wid. now right.
      - inversion G. split; [reflexivity|]. exists wi. now left. }
    exists e, s.
    split; [|repeat split; auto].
    destruct cls; cbv beta iota delta [aggregate];
      [unfold aggregate_base | unfold aggregate_roni]; run_step; rewrite G;
      reflexivity.
Qed.

End AbortClaims.

(** ** The installed model is the weighted mean *)

Section RationalMean.

Lemma fold_left_Zadd l : forall a, fold_left Z.add l a = a + Zsum l.
Proof.
  unfold Zsum. induction l as [|x r IH]; intros a; cbn; [lia|]. rewrite IH. lia.
Qed.

Lemma sum_Zsum l : sum l = Zsum l.
Proof. unfold sum. now rewrite fold_left_Zadd. Qed.

Lemma fold_left_Qplus (f : Q * Z -> Q) l :
  forall a, (fold_left (fun acc x => acc + f x) l a == a + Qsum (map f l))%Q.
Proof.
  unfold Qsum. induction l as [|x r IH]; intros a; cbn [fold_left map fold_right].
  - ring.
  - rewrite IH. ring.
Qed.

(** Over the rationals the left-to-right sum is the sum, in any order of
    association. *)
Lemma weighted_mean_Q (col : list (Q * Z)) (m : Q) :
  weighted_mean col = Some m ->
  (m == Qsum (map (fun x => fst x * inject_Z (snd x)) col)
        / inject_Z (Zsum (map snd col)))%Q.
Proof.
  destruct col as [|c r]; [discriminate|].
  unfold weighted_mean. intros Hm. inversion Hm; subst m; clear Hm.
  rewrite sum_Zsum. unfold weighted_sum.
  change (fold_left (fun acc x => tadd acc (tmul (fst x) (snd x))) r
            (tmul (fst c) (snd c)))
    with (fold_left (fun acc x => acc + (fun y => fst y * inject_Z (snd y)) x) r
            (fst c * inject_Z (snd c)))%Q.
  change (tdiv ?a ?n) with (a / inject_Z n)%Q.
  rewrite (fold_left_Qplus (fun x => fst x * inject_Z (snd x))%Q r).
  unfold Qsum. cbn [map fold_right]. reflexivity.
Qed.

End RationalMean.

Section InstalledModel.
Context {T : Type} `{TensorOps T}.
Variable W : World (T:=T).
Implicit Types (s : Server (T:=T)).

(** What a successful aggregation installs is [gen_agg_model] over the
    contributors of the round. *)
Lemma aggregated_contributors s s' :
  aggregated W s s' ->
  gen_agg_model (map fst (map snd (contributors s)))
    (map snd (map snd (contributors s)))
  = ok (global_model s').
Proof.
  intros (sds & szs & wids & G & D & _).
  destruct (gather_ok_inv _ _ _ _ _ G) as (_ & -> & -> & _).
  rewrite !map_map. exact D.
Qed.

Lemma agg_model_installs cls s s' :
  agg_model W cls s = Return true s' ->
  same_key_set (map snd (contributors s)) ->
  exists c0,
    hd_error (map snd (contributors s)) = Some c0
    /\ (forall k, In k (Dict.keys (fst c0)) ->
          exists col m,
            column k (map snd (contributors s)) = Some col
            /\ weighted_mean col = Some m
            /\ Dict.get k (global_model s') = Some m)
    /\ (forall k, ~ In k (Dict.keys (fst c0)) ->
          Dict.get k (global_model s') = None).
Proof.
  intros Hret Hsame. pose proof (agg_model_spec W cls s) as HS.
  rewrite Hret in HS. destruct HS as (_ & Ha).
  apply aggregated_contributors in Ha.
  destruct (map snd (contributors s)) as [|c0 r] eqn:Hcs; [discriminate|].
  exists c0. split; [reflexivity|].
  destruct (gen_agg_model_weighted_mean (c0 :: r) c0 eq_refl Hsame)
    as (d & Hd & Hin & Hout & _).
  rewrite Hd in Ha. inversion Ha; subst d. split; assumption.
Qed.

End InstalledModel.


(** ** Counting each worker once per round *)

Section UniqueCounting.
Context {T : Type} `{TensorOps T}.
Variable W : World (T:=T).
Implicit Types (s : Server (T:=T)).

Lemma mem_set {V} k k' (v : V) d :
  Dict.mem k' d = true -> Dict.mem k' (Dict.set k v d) = true.
Proof.
  unfold Dict.mem. rewrite DictFacts.get_set.
  destruct (String.eqb k' k); auto.
Qed.

(** The state every outcome of an accepted update starts from. *)
Lemma receive_registered_cases cls wid update_size model s :
  Dict.mem wid (worker_updates s) = true ->
  let s1 := recorded W wid update_size model s in
  let o := receive_worker_update W cls wid (Packed update_size model) s in
  (o = Return (update_received W wid) s1
   /\ unique_updates_since_last_agg s1 < update_lim s1)
  \/ (aggregated W s1 (final_state o))
  \/ (exists e s', o = Raise e s' /\ same_round s1 s'
                   /\ (clock_reads s1 <= clock_reads s')%nat).
Proof.
  intros Hm s1 o. subst o.
  rewrite (receive_registered W cls wid update_size model s Hm). fold s1.
  pose proof (agg_model_spec W cls s1) as HS.
  destruct (agg_model W cls s1) as [[|] s2|e s2].
  - right; left. destruct HS as (_ & Ha).
    destruct (trainer_test W (global_model s2)); exact Ha.
  - left. destruct HS as (Hlt & ->). auto.
  - right; right. exists e, s2. destruct HS as (_ & Hr & Hc). auto.
Qed.

Lemma receive_version_monotone cls wid update_size model s reply s' :
  receive_worker_update W cls wid (Packed update_size model) s = Return reply s' ->
  model_version s <= model_version s'.
Proof.
  intros Hret. destruct (Dict.mem wid (worker_updates s)) eqn:Hm.
  - destruct (receive_registered_cases cls wid update_size model s Hm)
      as [(Heq & _)|[Ha|(e & s2 & Heq & _)]].
    + rewrite Hret in Heq. inversion Heq; subst. cbn. lia.
    + rewrite Hret in Ha. cbn in Ha.
      destruct Ha as (sds & szs & wids & _ & _ & _ & _ & _ & _ & Hv & _).
      rewrite Hv. cbn. lia.
    + rewrite Hret in Heq. discriminate.
  - rewrite (receive_unregistered W cls wid _ s Hm) in Hret.
    inversion Hret; subst. lia.
Qed.

Lemma submissions_version_monotone cls calls :
  forall s s', submissions W cls calls s = Return tt s' ->
    model_version s <= model_version s'.
Proof.
  induction calls as [|[w [sz m]] rest IH]; intros s s' Hret; cbn in Hret.
  - inversion Hret; subst. lia.
  - unfold bind in Hret.
    destruct (receive_worker_update W cls w (Packed sz m) s)
      as [reply s1|e s1] eqn:R; [|discriminate].
    apply receive_version_monotone in R. apply IH in Hret. lia.
Qed.

(** A call that returns without a new model version stored the update and
    did nothing else. *)
Lemma receive_without_aggregation cls wid update_size model s reply s' :
  Dict.mem wid (worker_updates s) = true ->
  receive_worker_update W cls wid (Packed update_size model) s = Return reply s' ->
  model_version s' = model_version s ->
  s' = recorded W wid update_size model s.
Proof.
  intros Hm Hret Hv.
  destruct (receive_registered_cases cls wid update_size model s Hm)
    as [(Heq & _)|[Ha|(e & s2 & Heq & _)]].
  - rewrite Hret in Heq. now inversion Heq.
  - rewrite Hret in Ha. cbn in Ha.
    destruct Ha as (sds & szs & wids & _ & _ & _ & _ & _ & _ & Hv' & _).
    rewrite Hv' in Hv. cbn in Hv. lia.
  - rewrite Hret in Heq. discriminate.
Qed.

(** A submission stored at or after the start of the round does not count
    as new again. *)
Lemma recorded_not_new wid update_size model s :
  last_global_model_update_timestamp s <= clock W (clock_reads s) ->
  counts_as_new (recorded W wid update_size model s) wid = false.
Proof.
  intros Hclock. unfold counts_as_new, recorded. cbn.
  rewrite DictFacts.get_set_same. apply Z.ltb_ge. exact Hclock.
Qed.

(** A returning call without a new model version, by any worker: the state
    it leaves. *)
Lemma receive_quiet cls w update_size model s reply s' :
  receive_worker_update W cls w (Packed update_size model) s = Return reply s' ->
  model_version s' = model_version s ->
  s' = (if Dict.mem w (worker_updates s)
        then recorded W w update_size model s else s).
Proof.
  intros Hret Hv. destruct (Dict.mem w (worker_updates s)) eqn:Hm.
  - exact (receive_without_aggregation _ _ _ _ _ _ _ Hm Hret Hv).
  - rewrite (receive_unregistered W cls w _ s Hm) in Hret. now inversion Hret.
Qed.

Lemma recorded_other_not_new w wid update_size model s :
  w <> wid ->
  counts_as_new (recorded W w update_size model s) wid = counts_as_new s wid.
Proof.
  intros Hne. unfold counts_as_new, recorded. cbn.
  now rewrite DictFacts.get_set_other.
Qed.

Lemma recorded_round_start_passed w update_size model s :
  round_start_passed W s ->
  round_start_passed W (recorded W w update_size model s).
Proof. intros Hclock n Hn. cbn in *. apply Hclock. lia. Qed.

(** Through a run without aggregation, a worker that has submitted, or that
    did not count as new, does not count as new. *)
Lemma submissions_not_new cls wid calls :
  forall s s',
    round_start_passed W s ->
    submissions W cls calls s = Return tt s' ->
    model_version s' = model_version s ->
    (In wid (map fst calls) /\ Dict.mem wid (worker_updates s) = true)
    \/ counts_as_new s wid = false ->
    counts_as_new s' wid = false.
Proof.
  induction calls as [|[w [sz m]] rest IH]; intros s s' Hclock Hret Hv Hcase;
    cbn in Hret.
  - inversion Hret; subst. destruct Hcase as [([] & _)|Hnew]. exact Hnew.
  - unfold bind in Hret.
    destruct (receive_worker_update W cls w (Packed sz m) s)
      as [reply s1|e s1] eqn:R; [|discriminate].
    pose proof (receive_version_monotone _ _ _ _ _ _ _ R) as Hv1.
    pose proof (submissions_version_monotone _ _ _ _ Hret) as Hv2.
    assert (Hv1' : model_version s1 = model_version s) by lia.
    pose proof (receive_quiet _ _ _ _ _ _ _ R Hv1') as Hs1.
    destruct (Dict.mem w (worker_updates s)) eqn:Hm; subst s1.
    + apply (IH (recorded W w sz m s) s');
        [now apply recorded_round_start_passed | exact Hret | cbn; cbn in Hv; lia |].
      destruct (string_dec w wid) as [->|Hne].
      * right. apply recorded_not_new. apply Hclock. lia.
      * destruct Hcase as [([Heq|Hin] & Hmem)|Hnew].
        -- cbn in Heq. congruence.
        -- left. split; [exact Hin|]. cbn. now apply mem_set.
        -- right. now rewrite recorded_other_not_new.
    + apply (IH s s'); [exact Hclock | exact Hret | exact Hv |].
      destruct Hcase as [([Heq|Hin] & Hmem)|Hnew].
      * cbn in Heq. subst w. congruence.
      * left. auto.
      * right. exact Hnew.
Qed.

(** A run of one worker's submissions without aggregation moves the
    counter once if the first of them counted as new, and not otherwise. *)
Lemma submissions_counted_once cls wid calls :
  forall s s',
    Dict.mem wid (worker_updates s) = true ->
    round_start_passed W s ->
    (forall c, In c calls -> fst c = wid) ->
    submissions W cls calls s = Return tt s' ->
    model_version s' = model_version s ->
    unique_updates_since_last_agg s'
    = unique_updates_since_last_agg s
      + (if counts_as_new s wid && negb (Nat.eqb (List.length calls) 0)
         then 1 else 0).
Proof.
  induction calls as [|[w [sz m]] rest IH]; intros s s' Hm Hclock Hall Hret Hv;
    cbn in Hret.
  - inversion Hret; subst. rewrite andb_false_r. lia.
  - assert (w = wid) as -> by (apply (Hall (w, (sz, m))); now left).
    unfold bind in Hret.
    destruct (receive_worker_update W cls wid (Packed sz m) s)
      as [reply s1|e s1] eqn:R; [|discriminate].
    pose proof (receive_version_monotone _ _ _ _ _ _ _ R) as Hv1.
    pose proof (submissions_version_monotone _ _ _ _ Hret) as Hv2.
    assert (Hv1' : model_version s1 = model_version s) by lia.
    pose proof (receive_without_aggregation _ _ _ _ _ _ _ Hm R Hv1') as ->.
    rewrite (IH (recorded W wid sz m s) s'); [ | | | | exact Hret | ].
    + rewrite recorded_not_new by (apply Hclock; lia).
      cbn. rewrite andb_true_r. lia.
    + cbn. now apply mem_set.
    + now apply recorded_round_start_passed.
    + intros c Hc. apply Hall. now right.
    + cbn. cbn in Hv1'. lia.
Qed.


End UniqueCounting.

(** ** Reachable states and the clock *)

Section Reachability.
Context {T : Type} `{TensorOps T}.
Variable W : World (T:=T).
Implicit Types (s : Server (T:=T)).

Lemma clock_le n m : clock_monotone W -> (n <= m)%nat -> clock W n <= clock W m.
Proof.
  intros (_ & Hstep) Hnm. induction Hnm as [|m Hnm IH]; [lia|].
  specialize (Hstep m). lia.
Qed.

(** Bytes that unpack but do not load: the clock is read, then the call
    raises, the stored record unchanged. *)
Lemma receive_badmodel cls wid update_size s :
  Dict.mem wid (worker_updates s) = true ->
  receive_worker_update W cls wid (BadModel update_size) s
  = Raise UnpackError
      (snd (datetime_now W
              (if counts_as_new s wid
               then set_unique_updates_since_last_agg s
                      (unique_updates_since_last_agg s + 1)
               else s))).
Proof.
  intros Hm. destruct (mem_getitem _ _ Hm) as [stored Hg].
  unfold receive_worker_update, counts_as_new.
  cbv beta iota delta [bind self]. rewrite Hm.
  unfold Dict.getitem. rewrite Hg. cbv beta iota delta [lift bind].
  destruct stored as [[[ts sz] m]|];
    [destruct (ts <? last_global_model_update_timestamp s)|]; reflexivity.
Qed.

(** A call either keeps the start of the round, or moves it to a clock
    reading taken during the call. *)
Lemma after_call_clock cls c s :
  let s' := after_call W cls c s in
  (last_global_model_update_timestamp s' = last_global_model_update_timestamp s
   /\ (clock_reads s <= clock_reads s')%nat)
  \/ (exists n, (clock_reads s <= n)%nat
                /\ last_global_model_update_timestamp s' = clock W n
                /\ clock_reads s' = S n).
Proof.
  destruct c as [wid|wid|wid u]; cbv beta iota zeta delta [after_call].
  - left. cbn. split; [reflexivity | lia].
  - left. unfold unregister_worker.
    destruct (Dict.pop wid (worker_updates s)); cbn; split; (reflexivity || lia).
  - destruct (Dict.mem wid (worker_updates s)) eqn:Hm.
    + destruct u as [|sz|sz m].
      * rewrite (receive_malformed W cls wid s Hm). left.
        destruct (counts_as_new s wid); cbn; split; (reflexivity || lia).
      * rewrite (receive_badmodel cls wid sz s Hm). left.
        destruct (counts_as_new s wid); cbn; split; (reflexivity || lia).
      * destruct (receive_registered_cases W cls wid sz m s Hm)
          as [(Heq & _)|[Ha|(e & s2 & Heq & Hr & Hc)]].
        -- rewrite Heq. left. cbn. split; [reflexivity | lia].
        -- right.
           destruct Ha as (_ & _ & _ & _ & _ & _ & _ & _ & _ & _ & n & Hn & Hl & Hc).
           exists n. cbn in Hn. repeat split; [lia | exact Hl | exact Hc].
        -- rewrite Heq. left. cbn. destruct Hr as (_ & _ & Hl & _).
           cbn in *. split; [exact Hl | lia].
    + rewrite (receive_unregistered W cls wid u s Hm). left. cbn.
      split; [reflexivity | lia].
Qed.


End Reachability.

(** ** The theorems on the concrete deployment *)

Local Open Scope string_scope.




Lemma C4_unsubmitted_worker_raises_witness :
  agg_model Demo.world FedAvgServer Demo.ABC_B_recorded
  = Raise TypeError Demo.ABC_B_recorded
  /\ agg_model Demo.world FedAvgServerRoni Demo.ABC_B_recorded
     = Raise TypeError Demo.ABC_B_recorded.
Proof.
  split;
    apply (C4_unsubmitted_worker_raises Demo.world _ Demo.ABC_B_recorded "C");
    (apply Z.leb_le; reflexivity) || (right; right; left; reflexivity).
Defined.

(** The threshold-2 scenario of A, B and C, in either class: B's submission
    reaches the threshold and the call raises [TypeError] on C's empty
    record; nothing is aggregated and the model version stays 0. *)
Lemma C4_scenario_ABC :
  forall cls,
    receive_worker_update Demo.world cls "B" (Packed 5 (Demo.model 10))
      (final_state
         (receive_worker_update Demo.world FedAvgServerRoni "A"
            (Packed 5 (Demo.model 2)) Demo.registered_ABC))
    = Raise TypeError Demo.ABC_B_recorded.
Proof. intros [|]; vm_compute; reflexivity. Qed.






Lemma C8_no_contributors_witness :
  (exists e s',
     agg_model Demo.world FedAvgServerRoni Demo.A_gone = Raise e s'
     /\ global_model s' = Demo.model 0
     /\ unique_updates_since_last_agg s' = 1
     /\ model_version s' = 0)
  /\ exists e s',
       agg_model Demo.patched_world FedAvgServer Demo.A_gone = Raise e s'
       /\ global_model s' = Demo.model 0
       /\ unique_updates_since_last_agg s' = 1
       /\ model_version s' = 0.
Proof.
  split.
  - destruct (C8_no_contributors Demo.world FedAvgServerRoni Demo.A_gone)
      as (e & s' & Hraise & Hg & Hu & _ & Hv & _).
    + apply Z.leb_le. reflexivity.
    + reflexivity.
    + exists e, s'. split; [exact Hraise|]. split; [exact Hg|].
      split; [exact Hu|exact Hv].
  - destruct (C8_no_contributors Demo.patched_world FedAvgServer Demo.A_gone)
      as (e & s' & Hraise & Hg & Hu & _ & Hv & _).
    + apply Z.leb_le. reflexivity.
    + reflexivity.
    + exists e, s'. split; [exact Hraise|]. split; [exact Hg|].
      split; [exact Hu|exact Hv].
Defined.

Lemma C9_model_version_witness :
  (exists s',
     agg_model Demo.world FedAvgServerRoni (Demo.B_recorded Demo.world)
     = Return true s'
     /\ model_version s' = 1)
  /\ is_global_model_most_recent (Demo.B_recorded Demo.world) 0 = true
  /\ is_global_model_most_recent (Demo.B_recorded Demo.world) (-1) = false
  /\ is_global_model_most_recent (Demo.B_recorded Demo.world) 1 = false.
Proof.
  destruct (C9_model_version Demo.world FedAvgServerRoni
              (Demo.B_recorded Demo.world)) as [Hv Hrecent].
  split.
  - destruct (agg_model Demo.world FedAvgServerRoni (Demo.B_recorded Demo.world))
      as [[|] s'|e s'] eqn:Hret; try (vm_compute in Hret; discriminate).
    exists s'. split; [reflexivity|]. exact Hv.
  - split; [apply Hrecent; reflexivity|]. split; reflexivity.
Defined.

Lemma C10_agg_model_below_threshold_witness :
  unique_updates_since_last_agg (Demo.A_submitted Demo.world)
  < update_lim (Demo.A_submitted Demo.world)
  /\ agg_model Demo.world FedAvgServer (Demo.A_submitted Demo.world)
     = Return false (Demo.A_submitted Demo.world)
  /\ agg_model Demo.world FedAvgServerRoni (Demo.A_submitted Demo.world)
     = Return false (Demo.A_submitted Demo.world).
Proof.
  split; [reflexivity|].
  split; apply C10_agg_model_below_threshold; reflexivity.
Defined.

(** * Further properties of the server *)

Local Close Scope string_scope.

(** ** Removing from a dictionary *)

Module DictRemoveFacts.
Section Facts.
Variable V : Type.
Implicit Types (d : Dict.t V) (k : string) (v : V).

Lemma get_remove_other k k' d :
  k <> k' -> Dict.get k' (Dict.remove k d) = Dict.get k' d.
Proof.
  intros Hne. induction d as [|[k0 v0] r IH]; cbn; [reflexivity|].
  destruct (String.eqb k k0) eqn:E; cbn.
  - apply String.eqb_eq in E. subst k0.
    destruct (String.eqb k' k) eqn:E'; [|reflexivity].
    apply String.eqb_eq in E'. congruence.
  - now rewrite IH.
Qed.

Lemma In_keys_remove k k' d :
  In k' (Dict.keys (Dict.remove k d)) -> In k' (Dict.keys d).
Proof.
  induction d as [|[k0 v0] r IH]; cbn; [tauto|].
  destruct (String.eqb k k0); cbn; tauto.
Qed.

Lemma get_remove_same k d :
  NoDup (Dict.keys d) -> Dict.get k (Dict.remove k d) = None.
Proof.
  induction d as [|[k0 v0] r IH]; cbn; intros Hnd; [reflexivity|].
  inversion Hnd as [|? ? Hk0 Hr]; subst.
  destruct (String.eqb k k0) eqn:E; cbn.
  - apply String.eqb_eq in E. subst k0. now apply DictFacts.get_None_not_In.
  - rewrite E. now apply IH.
Qed.

Lemma keys_remove_NoDup k d :
  NoDup (Dict.keys d) -> NoDup (Dict.keys (Dict.remove k d)).
Proof.
  induction d as [|[k0 v0] r IH]; cbn; intros Hnd; [constructor|].
  inversion Hnd as [|? ? Hk0 Hr]; subst.
  destruct (String.eqb k k0); cbn; [exact Hr|].
  constructor; [|now apply IH].
  intros Hin. apply Hk0. now apply (In_keys_remove k).
Qed.

Lemma keys_set_NoDup k v d :
  NoDup (Dict.keys d) -> NoDup (Dict.keys (Dict.set k v d)).
Proof.
  intros Hnd. destruct (Dict.mem k d) eqn:E.
  - now rewrite DictFacts.keys_set_mem.
  - rewrite DictFacts.keys_set_fresh by exact E.
    apply NoDup_app; [exact Hnd | repeat constructor; intros [] |].
    intros x Hx [<-|[]].
    apply DictFacts.mem_In in Hx. congruence.
Qed.

Lemma remove_set_fresh k v d :
  Dict.mem k d = false -> Dict.remove k (Dict.set k v d) = d.
Proof.
  unfold Dict.mem. induction d as [|[k0 v0] r IH]; cbn; intros Hm.
  - now rewrite String.eqb_refl.
  - destruct (String.eqb k k0) eqn:E; [discriminate|]. cbn. rewrite E.
    now rewrite IH.
Qed.

Lemma In_set k v d k' v' :
  In (k', v') (Dict.set k v d) -> (k', v') = (k, v) \/ In (k', v') d.
Proof.
  induction d as [|[k0 v0] r IH]; cbn.
  - intros [Heq|[]]. left. congruence.
  - destruct (String.eqb k k0) eqn:E; cbn.
    + apply String.eqb_eq in E. subst k0. intros [Heq|Hin]; [left; congruence|tauto].
    + intros [Heq|Hin]; [tauto|]. destruct (IH Hin); tauto.
Qed.

End Facts.
End DictRemoveFacts.

(** ** The registry *)

Section RegistryExtras.
Context {T : Type} `{TensorOps T}.
Variable W : World (T:=T).
Implicit Types (s : Server (T:=T)).

(** The registry after a submission: untouched, or with the submitter's
    record replaced. *)
Lemma receive_registry cls wid u s :
  let s' := final_state (receive_worker_update W cls wid u s) in
  worker_updates s' = worker_updates s
  \/ (Dict.mem wid (worker_updates s) = true
      /\ exists sz m,
           u = Packed sz m
           /\ worker_updates s'
              = Dict.set wid (Some (clock W (clock_reads s), sz, m))
                  (worker_updates s)).
Proof.
  destruct (Dict.mem wid (worker_updates s)) eqn:Hm.
  - destruct u as [|sz|sz m].
    + rewrite (receive_malformed W cls wid s Hm). left.
      destruct (counts_as_new s wid); reflexivity.
    + rewrite (receive_badmodel W cls wid sz s Hm). left.
      destruct (counts_as_new s wid); reflexivity.
    + right. split; [reflexivity|]. exists sz, m. split; [reflexivity|].
      destruct (receive_registered_cases W cls wid sz m s Hm)
        as [(Heq & _)|[Ha|(e & s2 & Heq & Hr & _)]].
      * rewrite Heq. reflexivity.
      * destruct Ha as (_ & _ & _ & _ & _ & Hw & _). rewrite Hw. reflexivity.
      * rewrite Heq. cbn. destruct Hr as (Hw & _). rewrite Hw. reflexivity.
  - rewrite (receive_unregistered W cls wid u s Hm). left. reflexivity.
Qed.

Lemma after_call_keys_unique cls c s :
  NoDup (Dict.keys (worker_updates s)) ->
  NoDup (Dict.keys (worker_updates (after_call W cls c s))).
Proof.
  intros Hnd. destruct c as [wid|wid|wid u]; cbv beta iota zeta delta [after_call].
  - cbn. now apply DictRemoveFacts.keys_set_NoDup.
  - unfold unregister_worker, Dict.pop.
    destruct (Dict.mem wid (worker_updates s)); cbn; [|exact Hnd].
    now apply DictRemoveFacts.keys_remove_NoDup.
  - destruct (receive_registry cls wid u s) as [Heq|(_ & sz & m & _ & Heq)];
      rewrite Heq; [exact Hnd|].
    now apply DictRemoveFacts.keys_set_NoDup.
Qed.




(** X4. Bytes that do not decode, from a registered worker: the call raises, the
    registry is left as it was, and the counter has moved if the worker
    counted as new, so that the worker counts as new again at its next
    submission. *)
Theorem undecodable_update_still_counted cls wid s :
  Dict.mem wid (worker_updates s) = true ->
  exists s',
    receive_worker_update W cls wid Malformed s = Raise UnpackError s'
    /\ worker_updates s' = worker_updates s
    /\ unique_updates_since_last_agg s'
       = unique_updates_since_last_agg s
         + (if counts_as_new s wid then 1 else 0)
    /\ counts_as_new s' wid = counts_as_new s wid
    /\ model_version s' = model_version s
    /\ global_model s' = global_model s
    /\ clock_reads s' = clock_reads s.
Proof.
  intros Hm. rewrite (receive_malformed W cls wid s Hm).
  destruct (counts_as_new s wid) eqn:Hnew.
  - eexists. split; [reflexivity|]. cbn.
    repeat split; try lia. exact Hnew.
  - exists s. split; [reflexivity|]. repeat split; try lia. exact Hnew.
Qed.

End RegistryExtras.

(** ** Counters and versions along runs *)

Section CounterExtras.
Context {T : Type} `{TensorOps T}.
Variable W : World (T:=T).
Implicit Types (s : Server (T:=T)).

(** The outcomes of a decoded update from a registered worker, with what the
    threshold test saw. *)
Lemma receive_packed_outcomes cls wid sz m s :
  Dict.mem wid (worker_updates s) = true ->
  let s1 := recorded W wid sz m s in
  let o := receive_worker_update W cls wid (Packed sz m) s in
  (o = Return (update_received W wid) s1
   /\ unique_updates_since_last_agg s1 < update_lim s1)
  \/ (aggregated W s1 (final_state o)
      /\ update_lim s1 <= unique_updates_since_last_agg s1)
  \/ (exists e s', o = Raise e s' /\ same_round s1 s'
                   /\ update_lim s1 <= unique_updates_since_last_agg s1).
Proof.
  intros Hm s1 o. subst o.
  rewrite (receive_registered W cls wid sz m s Hm). fold s1.
  pose proof (agg_model_spec W cls s1) as HS.
  destruct (agg_model W cls s1) as [[|] s2|e s2].
  - right; left. destruct HS as (Hge & Ha).
    destruct (trainer_test W (global_model s2)); split; assumption.
  - left. destruct HS as (Hlt & ->). auto.
  - right; right. exists e, s2. destruct HS as (Hge & Hr & _). auto.
Qed.

Lemma after_call_counters cls c s :
  let s' := after_call W cls c s in
  update_lim s' = update_lim s
  /\ ((model_version s' = model_version s
       /\ iteration s' = iteration s
       /\ unique_updates_since_last_agg s <= unique_updates_since_last_agg s'
          <= unique_updates_since_last_agg s + 1)
      \/ (model_version s' = model_version s + 1
          /\ iteration s' = iteration s + 1
          /\ unique_updates_since_last_agg s' = 0
          /\ update_lim s <= unique_updates_since_last_agg s + 1)).
Proof.
  destruct c as [wid|wid|wid u]; cbv beta iota zeta delta [after_call].
  - cbn. split; [reflexivity|]. left. lia.
  - unfold unregister_worker. destruct (Dict.pop wid (worker_updates s)); cbn;
      (split; [reflexivity|]; left; lia).
  - destruct (Dict.mem wid (worker_updates s)) eqn:Hm.
    + destruct u as [|sz|sz m].
      * rewrite (receive_malformed W cls wid s Hm).
        destruct (counts_as_new s wid); cbn; (split; [reflexivity|]; left; lia).
      * rewrite (receive_badmodel W cls wid sz s Hm).
        destruct (counts_as_new s wid); cbn; (split; [reflexivity|]; left; lia).
      * assert (Hs1 : unique_updates_since_last_agg s
                      <= unique_updates_since_last_agg (recorded W wid sz m s)
                      <= unique_updates_since_last_agg s + 1)
          by (cbn; destruct (counts_as_new s wid); lia).
        destruct (receive_packed_outcomes cls wid sz m s Hm)
          as [(Heq & _)|[(Ha & Hge)|(e & s2 & Heq & Hr & _)]].
        -- rewrite Heq. cbn [final_state]. split; [reflexivity|]. left.
           cbn [model_version iteration recorded]. lia.
        -- destruct Ha as (_ & _ & _ & _ & _ & _ & Hl & Hu & Hi & Hv & _).
           cbn [recorded update_lim iteration model_version] in Hl, Hi, Hv, Hge.
           split; [exact Hl|]. right. lia.
        -- rewrite Heq. cbn [final_state].
           destruct Hr as (_ & Hl & _ & Hu & Hi & Hv & _).
           cbn [recorded update_lim iteration model_version] in Hl, Hi, Hv.
           split; [exact Hl|]. left. lia.
    + rewrite (receive_unregistered W cls wid u s Hm). cbn.
      split; [reflexivity|]. left. lia.
Qed.


Lemma counters_along_run cls s0 s :
  reachable_from W cls s0 s ->
  update_lim s = update_lim s0
  /\ model_version s0 <= model_version s
  /\ iteration s - model_version s = iteration s0 - model_version s0
  /\ (0 <= unique_updates_since_last_agg s0 ->
      0 <= unique_updates_since_last_agg s).
Proof.
  intros Hreach. induction Hreach as [|s c Hreach IH]; [lia|].
  destruct IH as (Hl & Hv & Hi & Hu).
  destruct (after_call_counters cls c s) as (Hl' & [(Hv' & Hi' & Hu')|(Hv' & Hi' & Hu' & _)]);
    cbv zeta in *; repeat split; try lia.
Qed.


(** [FedAvgServerRoni]: a call that leaves [model_version] leaves the global
    model. *)
Lemma after_call_roni_model c s :
  model_version (after_call W FedAvgServerRoni c s) = model_version s ->
  global_model (after_call W FedAvgServerRoni c s) = global_model s.
Proof.
  destruct c as [wid|wid|wid u]; cbv beta iota zeta delta [after_call].
  - reflexivity.
  - unfold unregister_worker. destruct (Dict.pop wid (worker_updates s));
      reflexivity.
  - destruct (Dict.mem wid (worker_updates s)) eqn:Hm.
    + destruct u as [|sz|sz m].
      * rewrite (receive_malformed W _ wid s Hm).
        destruct (counts_as_new s wid); reflexivity.
      * rewrite (receive_badmodel W _ wid sz s Hm).
        destruct (counts_as_new s wid); reflexivity.
      * rewrite (receive_registered W _ wid sz m s Hm).
        set (s1 := recorded W wid sz m s).
        destruct (Z.ltb_spec (unique_updates_since_last_agg s1) (update_lim s1))
          as [Hlt|Hge].
        -- rewrite (agg_model_deferred W _ s1 Hlt). reflexivity.
        -- rewrite (agg_model_triggered W _ s1 Hge).
           cbv beta iota delta [aggregate].
           pose proof (aggregate_roni_spec W s1) as HS.
           destruct (aggregate_roni W s1) as [b s2|e s2].
           ++ destruct HS as (-> & Ha).
              destruct Ha as (_ & _ & _ & _ & _ & _ & _ & _ & _ & Hv & _).
              destruct (trainer_test W (global_model s2)); cbn;
                intros Hv'; rewrite Hv in Hv'; cbn in Hv'; lia.
           ++ destruct HS as (_ & Hg & _). cbn. intros _. exact Hg.
    + rewrite (receive_unregistered W _ wid u s Hm). reflexivity.
Qed.

Lemma roni_model_along_run s0 s :
  reachable_from W FedAvgServerRoni s0 s ->
  model_version s = model_version s0 ->
  global_model s = global_model s0.
Proof.
  intros Hreach. induction Hreach as [|s c Hreach IH]; [reflexivity|].
  intros Hv.
  destruct (counters_along_run _ _ _ Hreach) as (_ & Hmono & _).
  destruct (after_call_counters FedAvgServerRoni c s) as (_ & [(Hv' & _)|(Hv' & _)]);
    cbv zeta in *; [|lia].
  rewrite (after_call_roni_model c s Hv'). apply IH. lia.
Qed.


End CounterExtras.

(** ** [FedAvgServer.agg_model] and the names it reads from the module *)

Section BaseClassExtras.
Context {T : Type} `{TensorOps T}.
Variable W : World (T:=T).
Implicit Types (s : Server (T:=T)).

Lemma gather_lengths items last sds szs wids :
  gather (T:=T) items last = ok (sds, szs, wids) ->
  List.length sds = List.length wids /\ List.length szs = List.length wids.
Proof.
  intros G. destruct (gather_ok_inv _ _ _ _ _ G) as (_ & -> & -> & ->).
  now rewrite !length_map.
Qed.

(** Without a binding for [gen_agg_model], or with a set-up of the audit
    trainer that raises, the aggregation body raises in the state it was
    entered in. *)
Lemma aggregate_base_unbound s :
  gen_agg_model_global W = None \/ (exists e, roni_config_trainer W = raise e) ->
  exists e, aggregate_base W s = Raise e s.
Proof.
  intros Hunbound. unfold aggregate_base. run_step.
  destruct (gather (worker_updates s) (last_global_model_update_timestamp s))
    as [[[sds szs] wids]|e] eqn:G; cbn; [|eauto].
  destruct (roni_config_trainer W) as [trainer|e] eqn:R; cbn; [|eauto].
  destruct Hunbound as [Hgen|(e & He)]; [|discriminate].
  destruct (gather_lengths _ _ _ _ _ G) as (Hl & _).
  destruct wids as [|w wids]; cbn.
  - destruct sds; [|discriminate]. cbn. eauto.
  - run_step. rewrite Hgen. cbn. eauto.
Qed.

Lemma after_call_base_unbound c s :
  gen_agg_model_global W = None \/ (exists e, roni_config_trainer W = raise e) ->
  model_version (after_call W FedAvgServer c s) = model_version s
  /\ iteration (after_call W FedAvgServer c s) = iteration s
  /\ global_model (after_call W FedAvgServer c s) = global_model s
  /\ last_global_model_update_timestamp (after_call W FedAvgServer c s)
     = last_global_model_update_timestamp s.
Proof.
  intros Hunbound.
  destruct c as [wid|wid|wid u]; cbv beta iota zeta delta [after_call].
  - repeat split.
  - unfold unregister_worker. destruct (Dict.pop wid (worker_updates s));
      repeat split.
  - destruct (Dict.mem wid (worker_updates s)) eqn:Hm.
    + destruct u as [|sz|sz m].
      * rewrite (receive_malformed W _ wid s Hm).
        destruct (counts_as_new s wid); repeat split.
      * rewrite (receive_badmodel W _ wid sz s Hm).
        destruct (counts_as_new s wid); repeat split.
      * rewrite (receive_registered W _ wid sz m s Hm).
        set (s1 := recorded W wid sz m s).
        destruct (Z.ltb_spec (unique_updates_since_last_agg s1) (update_lim s1))
          as [Hlt|Hge].
        -- rewrite (agg_model_deferred W _ s1 Hlt). repeat split.
        -- rewrite (agg_model_triggered W _ s1 Hge).
           cbv beta iota delta [aggregate].
           destruct (aggregate_base_unbound s1 Hunbound) as (e & ->).
           repeat split.
    + rewrite (receive_unregistered W _ wid u s Hm). repeat split.
Qed.


(** The leave-one-out loop of [FedAvgServer] stops at the first evaluation
    that raises, with the model under evaluation loaded in
    [global_model_trainer]. *)
Lemma base_loop_raises gen sds szs trainer before i rest d e :
  forall s,
    gen_agg_model_global W = Some gen ->
    (forall j, In j before ->
       exists dj pj, gen (drop_index j sds) (drop_index j szs) = ok dj
                     /\ trainer dj = ok pj) ->
    gen (drop_index i sds) (drop_index i szs) = ok d ->
    trainer d = raise e ->
    exists s',
      base_loop W (before ++ i :: rest) sds szs trainer s = Raise e s'
      /\ same_round s s'
      /\ global_model s' = d.
Proof.
  intros s Hgen. revert s.
  induction before as [|j before IH]; intros s Hbefore Hd He; cbn.
  - run_step. rewrite Hgen. cbn. rewrite Hd. cbn. rewrite He. cbn.
    eexists. split; [reflexivity|]. unfold same_round. cbn. tauto.
  - run_step. rewrite Hgen. cbn.
    destruct (Hbefore j) as (dj & pj & Hdj & Hpj); [now left|].
    rewrite Hdj. cbn. rewrite Hpj. cbn.
    match goal with
    | |- context [base_loop W _ sds szs trainer ?s0] =>
        destruct (IH s0) as (s' & Hrun & Hr & Hg);
          [intros j' Hj'; apply Hbefore; now right | exact Hd | exact He |]
    end.
    exists s'. split; [exact Hrun|]. split; [|exact Hg].
    eapply same_round_trans; [|exact Hr]. unfold same_round. cbn. tauto.
Qed.

(** X9. [FedAvgServer] with the missing names bound: when the evaluation of the
    leave-one-out model of contributor [i] raises, the exception leaves
    [agg_model] with that leave-one-out model installed as the global
    model, although [model_version], [iteration], the counter and the start
    of the round are unchanged. *)
Theorem base_class_evaluation_failure_leaves_subset_model
    gen trainer s sds szs wids i d e :
  gen_agg_model_global W = Some gen ->
  roni_config_trainer W = ok trainer ->
  update_lim s <= unique_updates_since_last_agg s ->
  gather (worker_updates s) (last_global_model_update_timestamp s)
  = ok (sds, szs, wids) ->
  (i < List.length wids)%nat ->
  (forall j, (j < i)%nat ->
     exists dj pj, gen (drop_index j sds) (drop_index j szs) = ok dj
                   /\ trainer dj = ok pj) ->
  gen (drop_index i sds) (drop_index i szs) = ok d ->
  trainer d = raise e ->
  exists s',
    agg_model W FedAvgServer s = Raise e s'
    /\ global_model s' = d
    /\ model_version s' = model_version s
    /\ iteration s' = iteration s
    /\ unique_updates_since_last_agg s' = unique_updates_since_last_agg s
    /\ last_global_model_update_timestamp s'
       = last_global_model_update_timestamp s.
Proof.
  intros Hgen Htr Hge G Hi Hbefore Hd He.
  rewrite (agg_model_triggered W _ s Hge). cbv beta iota delta [aggregate].
  destruct (base_loop_raises gen sds szs trainer (seq 0 i) i
              (seq (S i) (List.length wids - S i)) d e s Hgen)
    as (s' & Hrun & Hr & Hg);
    [intros j Hj; apply Hbefore; apply in_seq in Hj; lia | exact Hd | exact He |].
  rewrite <- (seq_split_at i _ Hi) in Hrun.
  exists s'. split.
  - unfold aggregate_base. run_step. rewrite G. cbn. rewrite Htr. cbn.
    rewrite Hrun. reflexivity.
  - destruct Hr as (_ & _ & r3 & r4 & r5 & r6 & _). repeat split; assumption.
Qed.

End BaseClassExtras.

(** ** Contributors, rounds and the audit store *)

Section RoundExtras.
Context {T : Type} `{TensorOps T}.
Variable W : World (T:=T).
Implicit Types (s : Server (T:=T)).

Lemma combine_contributors (l : list (string * (StateDict (T:=T) * Z))) :
  combine (map fst l)
    (combine (map (fun c => fst (snd c)) l) (map (fun c => snd (snd c)) l))
  = l.
Proof.
  induction l as [|[w [m z]] r IH]; cbn; [reflexivity|]. now rewrite IH.
Qed.


Lemma contributors_of_nil (items : Dict.t (option (WorkerUpdate (T:=T)))) last :
  (forall wid ts sz m, In (wid, Some (ts, sz, m)) items -> ts <= last) ->
  contributors_of items last = [].
Proof.
  induction items as [|[wi [[[ts sz] m]|]] r IH]; cbn; intros Hall.
  - reflexivity.
  - destruct (Z.ltb_spec last ts) as [Hlt|Hge].
    + specialize (Hall wi ts sz m (or_introl eq_refl)). lia.
    + apply IH. intros wid ts' sz' m' Hin. eapply Hall. right. exact Hin.
  - apply IH. intros wid ts' sz' m' Hin. eapply Hall. right. exact Hin.
Qed.

Lemma In_remove {V} k (d : Dict.t V) x : In x (Dict.remove k d) -> In x d.
Proof.
  induction d as [|[k0 v0] r IH]; cbn; [tauto|].
  destruct (String.eqb k k0); cbn; tauto.
Qed.

Lemma recorded_stamps_read wid sz m s :
  stamps_read W s -> stamps_read W (recorded W wid sz m s).
Proof.
  intros Hst w ts z model Hin. cbn in Hin.
  apply DictRemoveFacts.In_set in Hin. cbn. destruct Hin as [Heq|Hin].
  - inversion Heq; subst. exists (clock_reads s). split; [lia|reflexivity].
  - destruct (Hst _ _ _ _ Hin) as (n & Hn & ->). exists n. split; [lia|reflexivity].
Qed.

Lemma stamps_read_later s s' :
  stamps_read W s -> worker_updates s' = worker_updates s ->
  (clock_reads s <= clock_reads s')%nat -> stamps_read W s'.
Proof.
  intros Hst Hw Hc w ts z model Hin. rewrite Hw in Hin.
  destruct (Hst _ _ _ _ Hin) as (n & Hn & ->). exists n. split; [lia|reflexivity].
Qed.

Lemma after_call_stamps_read cls c s :
  stamps_read W s -> stamps_read W (after_call W cls c s).
Proof.
  intros Hst. destruct c as [wid|wid|wid u]; cbv beta iota zeta delta [after_call].
  - intros w ts z model Hin. cbn in Hin.
    apply DictRemoveFacts.In_set in Hin. destruct Hin as [Heq|Hin]; [discriminate|].
    exact (Hst _ _ _ _ Hin).
  - unfold unregister_worker, Dict.pop.
    destruct (Dict.mem wid (worker_updates s)); cbn; [|exact Hst].
    intros w ts z model Hin. cbn in Hin. apply In_remove in Hin.
    exact (Hst _ _ _ _ Hin).
  - destruct (Dict.mem wid (worker_updates s)) eqn:Hm.
    + destruct u as [|sz|sz m].
      * rewrite (receive_malformed W cls wid s Hm).
        apply (stamps_read_later s); [exact Hst| |];
          destruct (counts_as_new s wid); cbn; (reflexivity || lia).
      * rewrite (receive_badmodel W cls wid sz s Hm).
        apply (stamps_read_later s); [exact Hst| |];
          destruct (counts_as_new s wid); cbn; (reflexivity || lia).
      * pose proof (recorded_stamps_read wid sz m s Hst) as Hst1.
        destruct (receive_registered_cases W cls wid sz m s Hm)
          as [(Heq & _)|[Ha|(e & s2 & Heq & Hr & Hc)]].
        -- rewrite Heq. exact Hst1.
        -- destruct Ha as (_ & _ & _ & _ & _ & Hw & _ & _ & _ & _ & n & Hn & _ & Hc).
           apply (stamps_read_later _ _ Hst1 Hw). lia.
        -- rewrite Heq. cbn. destruct Hr as (Hw & _).
           exact (stamps_read_later _ _ Hst1 Hw Hc).
    + rewrite (receive_unregistered W cls wid u s Hm). exact Hst.
Qed.

(** Along every run the stored timestamps are readings the clock has given
    before. *)
Lemma stamps_read_invariant cls s0 s :
  stamps_read W s0 -> reachable_from W cls s0 s -> stamps_read W s.
Proof.
  intros Hst Hreach. induction Hreach as [|s c Hreach IH]; [exact Hst|].
  now apply after_call_stamps_read.
Qed.


End RoundExtras.

(** ** The audit record of a round *)

Section AuditExtras.
Context {T : Type} `{TensorOps T}.
Variable W : World (T:=T).
Implicit Types (s : Server (T:=T)).

Lemma set_all_stamped stamp k e run :
  model_start_timestamp e = stamp ->
  all_stamped stamp run -> all_stamped stamp (Dict.set k e run).
Proof.
  intros He Hall k' e' Hin. apply DictRemoveFacts.In_set in Hin.
  destruct Hin as [Heq|Hin]; [inversion Heq; now subst | eauto].
Qed.

Lemma roni_loop_entries sds szs wids stamp indices :
  forall run s run' s',
    all_stamped stamp run ->
    roni_loop W indices sds szs wids stamp run s = Return run' s' ->
    all_stamped stamp run'
    /\ (forall k, Dict.mem k run = true -> Dict.mem k run' = true)
    /\ (forall i, In i indices -> Dict.mem (nth i wids EmptyString) run' = true).
Proof.
  induction indices as [|j rest IH]; intros run s run' s' Hall Hrun.
  - cbn in Hrun. inversion Hrun; subst. split; [exact Hall|].
    split; [auto | intros i []].
  - cbn in Hrun. revert Hrun. run_step.
    destruct (gen_agg_model (drop_index j sds) (drop_index j szs)) as [dj|e];
      cbn; [|discriminate].
    destruct (roni_test W dj) as [pj|e]; cbn; [|discriminate].
    intros Hrun. apply IH in Hrun; [|now apply set_all_stamped].
    destruct Hrun as (Hall' & Hkeep & Hnew). split; [exact Hall'|]. split.
    + intros k Hk. apply Hkeep. now apply mem_set.
    + intros i [<-|Hi]; [|now apply Hnew].
      apply Hkeep. unfold Dict.mem. now rewrite DictFacts.get_set_same.
Qed.

(** X13. A successful aggregation of [FedAvgServerRoni] appends exactly one
    document to the audit store and keeps the earlier ones.  The document
    is filed under the model version before the increment, stamps every
    entry with the one clock reading taken before the evaluations, holds
    an entry for every contributor and, under ["global_model"], the
    evaluation of the model that is installed; that model is also the one
    left loaded in the audit trainer. *)
Theorem roni_audit_record s s' :
  agg_model W FedAvgServerRoni s = Return true s' ->
  exists run perf,
    roni_db s' = roni_db s ++ [(model_version s, run)]
    /\ all_stamped (clock W (clock_reads s)) run
    /\ roni_test W (global_model s') = ok perf
    /\ Dict.get "global_model"%string run
       = Some {| entry_average_loss := average_loss perf;
                 entry_accuracy := accuracy perf;
                 model_start_timestamp := clock W (clock_reads s) |}
    /\ (forall wid m sz, In (wid, (m, sz)) (contributors s) ->
          Dict.mem wid run = true)
    /\ roni_model s' = Some (global_model s').
Proof.
  intros Hret. pose proof (agg_model_spec W FedAvgServerRoni s) as HS.
  rewrite Hret in HS. destruct HS as (Hge & _).
  rewrite (agg_model_triggered W _ s Hge) in Hret.
  cbv beta iota delta [aggregate] in Hret. revert Hret.
  unfold aggregate_roni. run_step.
  destruct (gather (worker_updates s) (last_global_model_update_timestamp s))
    as [[[sds szs] wids]|e] eqn:G; cbn; [|discriminate].
  match goal with
  | |- context [roni_loop W ?ix sds szs wids ?st ?r ?s0] =>
      pose proof (roni_loop_frame W ix sds szs wids st r s0) as HF;
      pose proof (roni_loop_entries sds szs wids st ix r s0) as HE;
      destruct (roni_loop W ix sds szs wids st r s0) as [run s1|e s1]
  end; cbn; [|discriminate].
  destruct (gen_agg_model sds szs) as [d|e] eqn:D; cbn; [|discriminate].
  destruct (roni_test W d) as [perf|e] eqn:P; cbn; [|discriminate].
  intros Hret. inversion Hret; subst s'; clear Hret. cbn.
  destruct (HE run s1) as (Hall & _ & Hnew); [intros k e [] | reflexivity |].
  cbn in HF. destruct HF as ((_ & _ & _ & _ & _ & Hv & Hdb) & _ & _). cbn in Hv, Hdb.
  eexists _, perf. rewrite Hv, Hdb.
  split; [reflexivity|]. split; [|split; [exact P|split; [|split; [|reflexivity]]]].
  - apply set_all_stamped; [reflexivity | exact Hall].
  - apply DictFacts.get_set_same.
  - intros wid m sz Hin. apply mem_set.
    destruct (gather_ok_inv _ _ _ _ _ G) as (_ & _ & _ & Hw).
    fold (contributors s) in Hw.
    assert (Hwid : In wid wids).
    { rewrite Hw. apply in_map_iff. exists (wid, (m, sz)). auto. }
    destruct (In_nth _ _ EmptyString Hwid) as (i & Hi & Hnth).
    rewrite <- Hnth. apply Hnew. apply in_seq. lia.
Qed.

End AuditExtras.

(** ** Key sets and the arithmetic of the mean *)

Section KeyExtras.
Context {T : Type} `{TensorOps T}.
Implicit Types (cs : list (StateDict (T:=T) * Z)).

Lemma column_missing key cs :
  column key cs = None ->
  exists c, In c cs /\ ~ In key (Dict.keys (fst c)).
Proof.
  induction cs as [|[sd sz] r IH]; cbn; [discriminate|].
  destruct (Dict.get key sd) as [v|] eqn:G.
  - destruct (column key r) as [col|]; [discriminate|]. intros _.
    destruct (IH eq_refl) as (c & Hc & Hk). exists c. auto.
  - intros _. exists (sd, sz). split; [now left|].
    now apply DictFacts.get_None_not_In.
Qed.

Lemma agg_params_missing key cs :
  cs <> [] -> column key cs = None ->
  agg_params key (map fst cs) (map snd cs) = raise (KeyError key).
Proof.
  intros Hne Hc. destruct cs as [|[sd0 sz0] r]; [congruence|].
  unfold agg_params. rewrite combine_tl_split. cbn in *.
  unfold Dict.getitem. destruct (Dict.get key sd0) as [v0|]; [|reflexivity].
  cbn. rewrite agg_loop_missing; [reflexivity|].
  destruct (column key r); [discriminate | reflexivity].
Qed.

Lemma agg_keys_outcome (sds : list (StateDict (T:=T))) szs ks :
  forall acc,
    match agg_keys ks sds szs acc with
    | inl _ => forall k, In k ks -> exists v, agg_params k sds szs = ok v
    | inr e => exists k, In k ks /\ agg_params k sds szs = raise e
    end.
Proof.
  induction ks as [|k0 r IH]; intros acc; cbn.
  - intros k [].
  - destruct (agg_params k0 sds szs) as [v0|e] eqn:A; cbn.
    + specialize (IH (Dict.set k0 v0 acc)).
      destruct (agg_keys r sds szs (Dict.set k0 v0 acc)) as [d|e].
      * intros k [<-|Hk]; eauto.
      * destruct IH as (k & Hk & He). exists k. auto.
    + exists k0. auto.
Qed.

(** X14. [gen_agg_model] has no check of its own on key sets.  It succeeds
    exactly when every key of the first model is a key of every other
    model (keys that only later models have are dropped without notice),
    raises [KeyError] for a key of the first model that some model lacks,
    and [IndexError] on no models at all. *)
Theorem gen_agg_model_key_mismatch cs c0 :
  hd_error cs = Some c0 ->
  ((forall k c, In k (Dict.keys (fst c0)) -> In c cs -> In k (Dict.keys (fst c)))
   <-> exists d, gen_agg_model (map fst cs) (map snd cs) = ok d)
  /\ (forall e,
        gen_agg_model (map fst cs) (map snd cs) = raise e ->
        exists k c, e = KeyError k /\ In k (Dict.keys (fst c0))
                    /\ In c cs /\ ~ In k (Dict.keys (fst c)))
  /\ gen_agg_model (T:=T) [] [] = raise IndexError.
Proof.
  intros Hhd. destruct cs as [|c r]; [discriminate|].
  cbn in Hhd. inversion Hhd; subst c0. clear Hhd.
  assert (Hne : c :: r <> []) by discriminate.
  pose proof (agg_keys_outcome (fst c :: map fst r) (snd c :: map snd r)
                (Dict.keys (fst c)) []) as HO.
  unfold gen_agg_model. cbn [map]. split; [split|split].
  - intros Hincl.
    destruct (agg_keys (Dict.keys (fst c)) (fst c :: map fst r)
                (snd c :: map snd r) []) as [d|e]; [eauto|].
    destruct HO as (k & Hk & He). exfalso.
    destruct (column k (c :: r)) as [col|] eqn:Hc.
    + destruct (agg_params_column k _ _ Hne Hc) as (m & _ & Hm).
      cbn [map] in Hm. congruence.
    + destruct (column_missing _ _ Hc) as (c' & Hc' & Hmiss).
      apply Hmiss. now apply Hincl.
  - intros (d & Hd) k c' Hk Hc'. rewrite Hd in HO.
    destruct (HO k Hk) as (v & Hv).
    destruct (column k (c :: r)) as [col|] eqn:Hc.
    + clear Hv. revert c' Hc' Hc. generalize (c :: r). clear.
      intros cs c' Hc'. revert col.
      induction cs as [|[sd sz] rest IH]; [destruct Hc'|]. cbn. intros col Hc.
      destruct (Dict.get k sd) as [v|] eqn:G; [|discriminate].
      destruct (column k rest) as [col'|]; [|discriminate].
      destruct Hc' as [<-|Hin]; [|eauto].
      cbn. apply DictFacts.mem_In. unfold Dict.mem. now rewrite G.
    + pose proof (agg_params_missing k _ Hne Hc) as Hm. cbn [map] in Hm.
      congruence.
  - intros e He. rewrite He in HO. destruct HO as (k & Hk & Hp).
    destruct (column k (c :: r)) as [col|] eqn:Hc.
    + destruct (agg_params_column k _ _ Hne Hc) as (m & _ & Hm).
      cbn [map] in Hm. congruence.
    + pose proof (agg_params_missing k _ Hne Hc) as Hm. cbn [map] in Hm.
      destruct (column_missing _ _ Hc) as (c' & Hc' & Hmiss).
      exists k, c'. repeat split; try assumption. congruence.
  - reflexivity.
Qed.

End KeyExtras.

Section RationalExtras.

Lemma Qsum_perm (l l' : list Q) : Permutation l l' -> (Qsum l == Qsum l')%Q.
Proof.
  unfold Qsum. induction 1; cbn [fold_right].
  - reflexivity.
  - now rewrite IHPermutation.
  - ring.
  - now rewrite IHPermutation1.
Qed.

Lemma Zsum_perm (l l' : list Z) : Permutation l l' -> Zsum l = Zsum l'.
Proof.
  unfold Zsum. induction 1; cbn [fold_right]; lia.
Qed.

Lemma column_perm key (cs cs' : list (StateDict (T:=Q) * Z)) :
  Permutation cs cs' ->
  forall col, column key cs = Some col ->
    exists col', column key cs' = Some col' /\ Permutation col col'.
Proof.
  induction 1 as [|[sd sz] l l' Hp IH|[sd1 sz1] [sd2 sz2] l|l l' l'' Hp1 IH1 Hp2 IH2];
    cbn; intros col Hc.
  - inversion Hc. exists []. auto.
  - destruct (Dict.get key sd) as [v|]; [|discriminate].
    destruct (column key l) as [c|]; [|discriminate].
    inversion Hc; subst. destruct (IH c eq_refl) as (c' & -> & Hpc).
    eexists. split; [reflexivity|]. now constructor.
  - destruct (Dict.get key sd2) as [v2|]; [|discriminate].
    destruct (Dict.get key sd1) as [v1|]; [|discriminate].
    destruct (column key l) as [c|]; [|discriminate].
    inversion Hc; subst. eexists. split; [reflexivity|]. constructor.
  - destruct (IH1 col Hc) as (c' & Hc' & Hp').
    destruct (IH2 c' Hc') as (c'' & Hc'' & Hp'').
    exists c''. split; [exact Hc''|]. now transitivity c'.
Qed.

Lemma agg_params_ok_column key (cs : list (StateDict (T:=Q) * Z)) m :
  agg_params key (map fst cs) (map snd cs) = ok m ->
  exists col, column key cs = Some col /\ weighted_mean col = Some m.
Proof.
  intros Hm. destruct cs as [|c r]; [discriminate|].
  assert (Hne : c :: r <> []) by discriminate.
  destruct (column key (c :: r)) as [col|] eqn:Hc.
  - destruct (agg_params_column key _ _ Hne Hc) as (m' & Hw & Hm').
    exists col. split; [reflexivity|]. congruence.
  - rewrite (agg_params_missing key _ Hne Hc) in Hm. discriminate.
Qed.

(** X15. Over the rationals the order in which the contributors are stored does
    not matter: [agg_params] on a reordered list of contributors returns
    an equal value. *)
Theorem agg_params_order_independent key
    (cs cs' : list (StateDict (T:=Q) * Z)) (m m' : Q) :
  Permutation cs cs' ->
  agg_params key (map fst cs) (map snd cs) = ok m ->
  agg_params key (map fst cs') (map snd cs') = ok m' ->
  (m == m')%Q.
Proof.
  intros Hp Hm Hm'.
  destruct (agg_params_ok_column key cs m Hm) as (col & Hc & Hw).
  destruct (agg_params_ok_column key cs' m' Hm') as (col' & Hc' & Hw').
  destruct (column_perm key cs cs' Hp col Hc) as (col2 & Hc2 & Hpc).
  rewrite Hc' in Hc2. inversion Hc2; subst col2.
  rewrite (weighted_mean_Q col m Hw), (weighted_mean_Q col' m' Hw').
  rewrite (Qsum_perm _ _ (Permutation_map
             (fun x : Q * Z => fst x * inject_Z (snd x))%Q Hpc)).
  rewrite (Zsum_perm _ _ (Permutation_map snd Hpc)).
  reflexivity.
Qed.

Lemma weighted_sum_bounds (lo hi : Q) (col : list (Q * Z)) :
  (forall v z, In (v, z) col -> (lo <= v)%Q /\ (v <= hi)%Q /\ 0 <= z) ->
  (lo * inject_Z (Zsum (map snd col))
   <= Qsum (map (fun x => fst x * inject_Z (snd x)) col))%Q
  /\ (Qsum (map (fun x => fst x * inject_Z (snd x)) col)
      <= hi * inject_Z (Zsum (map snd col)))%Q.
Proof.
  unfold Qsum, Zsum. induction col as [|[v z] r IH]; cbn [map fold_right fst snd];
    intros Hall.
  - split; ring_simplify; apply Qle_refl.
  - destruct IH as (IHlo & IHhi); [intros v' z' Hin; apply Hall; now right|].
    destruct (Hall v z (or_introl eq_refl)) as (Hlo & Hhi & Hz).
    assert (Hz' : (0 <= inject_Z z)%Q)
      by (change 0%Q with (inject_Z 0); now rewrite <- Zle_Qle).
    rewrite inject_Z_plus. split; nra.
Qed.

(** X16. Over the rationals, with non-negative sample counts of positive total,
    the value [agg_params] returns for a key lies between the smallest and
    the largest of the contributors' values for that key; when all
    contributors agree it is that value. *)
Theorem agg_params_between key (cs : list (StateDict (T:=Q) * Z))
    (col : list (Q * Z)) (m lo hi : Q) :
  agg_params key (map fst cs) (map snd cs) = ok m ->
  column key cs = Some col ->
  (forall v z, In (v, z) col -> (lo <= v)%Q /\ (v <= hi)%Q /\ 0 <= z) ->
  0 < Zsum (map snd cs) ->
  (lo <= m)%Q /\ (m <= hi)%Q.
Proof.
  intros Hm Hc Hall Hpos.
  destruct (agg_params_ok_column key cs m Hm) as (col' & Hc' & Hw).
  rewrite Hc in Hc'. inversion Hc'; subst col'.
  rewrite <- (column_length key cs col Hc) in Hpos.
  destruct (weighted_sum_bounds lo hi col Hall) as (Hlo & Hhi).
  assert (HN : (0 < inject_Z (Zsum (map snd col)))%Q)
    by (change 0%Q with (inject_Z 0); now rewrite <- Zlt_Qlt).
  rewrite (weighted_mean_Q col m Hw). split.
  - apply Qle_shift_div_l; assumption.
  - apply Qle_shift_div_r; assumption.
Qed.

End RationalExtras.

(** * The key pair tool *)

Module KeyPairToolFacts.
Import KeyPairTool.

Lemma append_same_nil (s t : string) : (s ++ t)%string = s -> t = EmptyString.
Proof.
  induction s as [|c s IH]; cbn; intros Heq; [exact Heq|].
  inversion Heq. auto.
Qed.

Lemma pub_filename_differs (filename : string) :
  (filename ++ ".pub")%string <> filename.
Proof. intros Heq. apply append_same_nil in Heq. discriminate. Qed.

Lemma read_unary_unary n : read_unary (unary n) = Some n.
Proof. induction n as [|n IH]; cbn; [reflexivity|]. now rewrite IH. Qed.

Section Tool.
Context {N : Nacl}.

Lemma gen_pair_files seed filename (fs : Files) :
  Dict.get filename (fst (gen_pair seed filename fs))
  = Some (encode_signing_key (generate seed))
  /\ Dict.get (filename ++ ".pub")%string (fst (gen_pair seed filename fs))
     = Some (encode_verify_key (verify_key (generate seed)))
  /\ (forall name,
        name <> filename -> name <> (filename ++ ".pub")%string ->
        Dict.get name (fst (gen_pair seed filename fs)) = Dict.get name fs)
  /\ snd (gen_pair seed filename fs)
     = (generate seed, verify_key (generate seed)).
Proof.
  pose proof (pub_filename_differs filename) as Hne.
  unfold gen_pair. cbn [fst snd]. split; [|split; [|split]].
  - rewrite !DictFacts.get_set_other by exact Hne.
    apply DictFacts.get_set_same.
  - apply DictFacts.get_set_same.
  - intros name H1 H2.
    rewrite !DictFacts.get_set_other by congruence. reflexivity.
  - reflexivity.
Qed.


(** [verify_pair] reads [filename] and [filename + '.pub'] only. *)
Lemma verify_pair_reads_two_files filename (fs fs' : Files) :
  Dict.get filename fs' = Dict.get filename fs ->
  Dict.get (filename ++ ".pub")%string fs' = Dict.get (filename ++ ".pub")%string fs ->
  verify_pair filename fs' = verify_pair filename fs.
Proof. intros H1 H2. unfold verify_pair. now rewrite H1, H2. Qed.



End Tool.
End KeyPairToolFacts.

(** * The further properties on the concrete deployments *)

Local Open Scope string_scope.

Lemma demo_clock_monotone : clock_monotone Demo.world.
Proof.
  split.
  - change (datetime_1980_10_10 <= datetime_1980_10_10 + 1 + Z.of_nat 0). lia.
  - intros n.
    change (datetime_1980_10_10 + 1 + Z.of_nat n
            <= datetime_1980_10_10 + 1 + Z.of_nat (S n)). lia.
Defined.

Lemma demo_run_from_init :
  reachable_from Demo.world FedAvgServerRoni (init (Demo.model 0) 2)
    (after_call Demo.world FedAvgServerRoni DemoBase.submit_B
       (Demo.A_submitted Demo.world)).
Proof.
  apply reachable_from_call.
  change (Demo.A_submitted Demo.world)
    with (after_call Demo.world FedAvgServerRoni DemoBase.submit_A
            (after_call Demo.world FedAvgServerRoni (CallRegister "B")
               (after_call Demo.world FedAvgServerRoni (CallRegister "A")
                  (init (Demo.model 0) 2)))).
  repeat apply reachable_from_call. apply reachable_from_start.
Defined.

Lemma demo_A_submitted_from_init :
  reachable_from Demo.world FedAvgServerRoni (init (Demo.model 0) 2)
    (Demo.A_submitted Demo.world).
Proof.
  change (Demo.A_submitted Demo.world)
    with (after_call Demo.world FedAvgServerRoni DemoBase.submit_A
            (after_call Demo.world FedAvgServerRoni (CallRegister "B")
               (after_call Demo.world FedAvgServerRoni (CallRegister "A")
                  (init (Demo.model 0) 2)))).
  repeat apply reachable_from_call. apply reachable_from_start.
Defined.


Lemma demo_A_submitted_keys :
  NoDup (Dict.keys (worker_updates (Demo.A_submitted Demo.world))).
Proof.
  repeat constructor; cbn; intros Hin;
    repeat (destruct Hin as [Hin|Hin]; [discriminate|]); exact Hin.
Defined.



Lemma undecodable_update_still_counted_witness :
  exists s',
    receive_worker_update Demo.world FedAvgServerRoni "B" Malformed
      (Demo.A_submitted Demo.world)
    = Raise UnpackError s'
    /\ unique_updates_since_last_agg s' = 2
    /\ counts_as_new s' "B" = true.
Proof.
  destruct (undecodable_update_still_counted Demo.world FedAvgServerRoni "B"
              (Demo.A_submitted Demo.world) eq_refl)
    as (s' & Hraise & _ & Hu & Hnew & _).
  exists s'. split; [exact Hraise|]. split; [exact Hu | exact Hnew].
Defined.





Lemma base_class_evaluation_failure_leaves_subset_model_witness :
  exists s',
    agg_model DemoBase.world FedAvgServer (Demo.B_recorded DemoBase.world)
    = Raise EvaluationError s'
    /\ global_model s' = Demo.model 10
    /\ model_version s' = 0.
Proof.
  destruct (base_class_evaluation_failure_leaves_subset_model DemoBase.world
              gen_agg_model DemoBase.failing_trainer
              (Demo.B_recorded DemoBase.world)
              [Demo.model 2; Demo.model 10] [3; 1] ["A"; "B"]
              0%nat (Demo.model 10) EvaluationError)
    as (s' & Hraise & Hg & Hv & _).
  - reflexivity.
  - reflexivity.
  - apply Z.leb_le. reflexivity.
  - reflexivity.
  - cbn. lia.
  - intros j Hj. lia.
  - reflexivity.
  - reflexivity.
  - exists s'. split; [exact Hraise|]. split; [exact Hg | exact Hv].
Defined.


Lemma demo_A_submitted_stamps : stamps_read Demo.world (Demo.A_submitted Demo.world).
Proof.
  intros wid ts sz m Hin. cbn in Hin.
  destruct Hin as [Heq|[Heq|[]]]; [|discriminate].
  inversion Heq; subst. exists 0%nat. split; [cbn; lia | reflexivity].
Defined.


Lemma roni_audit_record_witness :
  exists s' run,
    agg_model Demo.world FedAvgServerRoni (Demo.B_recorded Demo.world)
    = Return true s'
    /\ roni_db s' = [(0, run)]
    /\ Dict.mem "global_model" run = true.
Proof.
  assert (Hret :
    agg_model Demo.world FedAvgServerRoni (Demo.B_recorded Demo.world)
    = Return true
        (final_state
           (agg_model Demo.world FedAvgServerRoni (Demo.B_recorded Demo.world))))
    by (vm_compute; reflexivity).
  destruct (roni_audit_record Demo.world _ _ Hret)
    as (run & perf & Hdb & _ & _ & Hglobal & _).
  eexists _, run. split; [exact Hret|]. split; [exact Hdb|].
  unfold Dict.mem. rewrite Hglobal. reflexivity.
Defined.

Lemma gen_agg_model_key_mismatch_witness :
  exists d,
    gen_agg_model [Demo.model 2; [("w", 10%Q); ("extra", 1%Q)]] [3; 1] = ok d
    /\ Dict.get "extra" d = None.
Proof.
  destruct (gen_agg_model_key_mismatch
              [(Demo.model 2, 3); ([("w", 10%Q); ("extra", 1%Q)], 1)]
              (Demo.model 2, 3) eq_refl) as [[Hok _] _].
  destruct Hok as (d & Hd).
  - intros k c [<-|[]] [<-|[<-|[]]]; cbn; auto.
  - exists d. split; [exact Hd|].
    cbn in Hd. inversion Hd. reflexivity.
Defined.

Lemma agg_params_order_independent_witness :
  exists m m' : Q,
    agg_params "w" [Demo.model 2; Demo.model 10] [3; 1] = ok m
    /\ agg_params "w" [Demo.model 10; Demo.model 2] [1; 3] = ok m'
    /\ (m == m')%Q.
Proof.
  eexists _, _. split; [reflexivity|]. split; [reflexivity|].
  apply (agg_params_order_independent "w"
           [(Demo.model 2, 3); (Demo.model 10, 1)]
           [(Demo.model 10, 1); (Demo.model 2, 3)]).
  - apply perm_swap.
  - reflexivity.
  - reflexivity.
Defined.

Lemma agg_params_between_witness :
  exists m : Q,
    agg_params "w" [Demo.model 2; Demo.model 10] [3; 1] = ok m
    /\ (2 <= m)%Q /\ (m <= 10)%Q.
Proof.
  eexists. split; [reflexivity|].
  apply (agg_params_between "w" [(Demo.model 2, 3); (Demo.model 10, 1)]
           [(2%Q, 3); (10%Q, 1)]).
  - reflexivity.
  - reflexivity.
  - intros v z [Heq|[Heq|[]]]; inversion Heq; subst;
      (split; [|split]); try (unfold Qle; cbn; lia); lia.
  - reflexivity.
Defined.




